(** * Cryptographic data vault: key manager, AES-GCM service and vault orchestrator

    A shallow embedding of [keyManager.js], [encryptionService.js],
    [dataStore.js] and [vaultService.js].

    JavaScript objects that are mutated in place (the KeyManager, the
    DataStore map, the key buffers) live in an explicit [World]; methods are
    computations in a state-and-exception monad [M] in which a thrown
    exception keeps every mutation performed before the [throw], as in JS.

    The Node.js host (crypto.randomBytes, crypto.randomUUID, crypto.hkdfSync,
    AES-256-GCM, JSON, UTF-8 and base64 codecs, the clock) is a record
    [Host] of functions; laws about it are stated separately where needed. *)

From Stdlib Require Import ZArith String Ascii Lia.
From stdpp Require Import base gmap list strings pretty.

Open Scope Z_scope.

(** ** The Node.js host *)

Record Host := mkHost {
  (** a JS value handed to [JSON.stringify] / returned by [JSON.parse] *)
  val : Type;
  (** a JS string holding JSON text *)
  text : Type;
  (** a JS string holding base64 text *)
  b64 : Type;
  (** [crypto.randomBytes(n)] for the [i]-th random draw *)
  random_bytes : nat -> nat -> list Z;
  (** [crypto.randomUUID()] for the [i]-th random draw *)
  random_uuid : nat -> string;
  (** [crypto.hkdfSync('sha256', ikm, salt, info, len)]; [None] = throws *)
  hkdf_sync : list Z -> list Z -> string -> nat -> option (list Z);
  (** createCipheriv('aes-256-gcm', key, iv) + update/final + getAuthTag;
      [None] = one of these throws *)
  gcm_encrypt : list Z -> list Z -> list Z -> option (list Z * list Z);
  (** createDecipheriv + setAuthTag + update/final: the plaintext, or the
      message of the Node error thrown *)
  gcm_decrypt : list Z -> list Z -> list Z -> list Z -> string + list Z;
  (** [JSON.stringify]: [None] is the [undefined] result *)
  json_stringify : val -> option text;
  (** [JSON.parse]: [None] = throws SyntaxError *)
  json_parse : text -> option val;
  utf8_encode : text -> list Z;
  utf8_decode : list Z -> text;
  base64_encode : list Z -> b64;
  base64_decode : b64 -> list Z;
}.

Arguments val : clear implicits.
Arguments text : clear implicits.
Arguments b64 : clear implicits.

(** ** Strings as JavaScript prints them *)

(** [`${n}`] for an integral JS number. *)
Definition js_num_str (z : Z) : string :=
  if Z.ltb z 0 then String "-" (pretty (Z.to_N (- z))) else pretty (Z.to_N z).

(** [`${x}`] for a number-or-null field. *)
Definition js_opt_num_str (o : option Z) : string :=
  match o with Some z => js_num_str z | None => "null" end.

(** [s.includes(p)] *)
Fixpoint str_prefix (p s : string) : bool :=
  match p, s with
  | EmptyString, _ => true
  | String a p', String b s' => Ascii.eqb a b && str_prefix p' s'
  | _, _ => false
  end.

Fixpoint str_includes (s p : string) : bool :=
  str_prefix p s ||
  match s with EmptyString => false | String _ s' => str_includes s' p end.

(** [Buffer.from(s, 'hex')] on the UTF-16 code units of [s]: Node keeps
    the low byte of each code unit, decodes pairs of hex digits and stops at
    the first pair that is not one. *)
Definition unhex (u : Z) : option Z :=
  let c := Z.land u 255 in
  if (48 <=? c) && (c <=? 57) then Some (c - 48)
  else if (97 <=? c) && (c <=? 102) then Some (c - 87)
  else if (65 <=? c) && (c <=? 70) then Some (c - 55)
  else None.

Fixpoint hex_decode (s : list Z) : list Z :=
  match s with
  | a :: b :: rest =>
      match unhex a, unhex b with
      | Some x, Some y => (16 * x + y) :: hex_decode rest
      | _, _ => []
      end
  | _ => []
  end.

(** ** Heap of binary buffers *)

Definition loc := N.

(** [crypto.hkdfSync] returns an [ArrayBuffer]; [Buffer.from] and
    [crypto.randomBytes] return Node [Buffer]s. *)
Inductive buf_kind := NodeBuffer | ArrayBuf.

Record buf := mkBuf { buf_kind_of : buf_kind; buf_bytes : list Z }.

Definition is_buffer (b : buf) : bool :=
  match buf_kind_of b with NodeBuffer => true | ArrayBuf => false end.

(** [b.fill(0)] *)
Definition fill0 (b : buf) : buf := mkBuf (buf_kind_of b) (map (fun _ => 0) (buf_bytes b)).

Section Model.

Context (H : Host).

(** ** Objects *)

(** The fields of a [KeyManager]. Keys are references to heap buffers. *)
Record KeyManager := mkKM {
  masterKeyBuffer : loc;
  rotationIntervalMs : Z;
  currentVersion : Z;
  previousVersion : option Z;
  currentKey : option loc;
  previousKey : option loc;
  rotationTimer : option N;
  lastRotationTime : option Z;
}.

(** A record of the [DataStore]'s [Map]. *)
Record StoredRecord := mkRecord {
  rec_id : string;
  keyVersion : Z;
  rec_ciphertext : b64 H;
  rec_iv : b64 H;
  rec_tag : b64 H;
  rec_timestamp : Z;
  rec_metadata : list (string * string);
}.

Record World := mkWorld {
  w_heap : gmap loc buf;
  w_next_loc : loc;
  w_timers : gset N;        (** active [setInterval] handles *)
  w_next_timer : N;
  w_rng : nat;              (** random draws consumed so far *)
  w_clock : Z;              (** [Date.now()] *)
  w_km : KeyManager;        (** [vault.keyManager] *)
  w_storage : gmap string StoredRecord;  (** [vault.dataStore.storage] *)
}.

Definition set_heap (h : gmap loc buf) (w : World) : World :=
  mkWorld h (w_next_loc w) (w_timers w) (w_next_timer w) (w_rng w) (w_clock w) (w_km w) (w_storage w).
Definition set_next_loc (n : loc) (w : World) : World :=
  mkWorld (w_heap w) n (w_timers w) (w_next_timer w) (w_rng w) (w_clock w) (w_km w) (w_storage w).
Definition set_timers (t : gset N) (n : N) (w : World) : World :=
  mkWorld (w_heap w) (w_next_loc w) t n (w_rng w) (w_clock w) (w_km w) (w_storage w).
Definition set_rng (r : nat) (w : World) : World :=
  mkWorld (w_heap w) (w_next_loc w) (w_timers w) (w_next_timer w) r (w_clock w) (w_km w) (w_storage w).
Definition set_km (k : KeyManager) (w : World) : World :=
  mkWorld (w_heap w) (w_next_loc w) (w_timers w) (w_next_timer w) (w_rng w) (w_clock w) k (w_storage w).
Definition set_storage (s : gmap string StoredRecord) (w : World) : World :=
  mkWorld (w_heap w) (w_next_loc w) (w_timers w) (w_next_timer w) (w_rng w) (w_clock w) (w_km w) s.

(** ** State-and-exception monad *)

Inductive exn := JsError (msg : string) | JsTypeError (msg : string).

Definition exn_message (e : exn) : string :=
  match e with JsError m => m | JsTypeError m => m end.

Definition M (A : Type) : Type := World -> (exn + A) * World.

#[global] Instance M_ret : MRet M := fun A a w => (inr a, w).
#[global] Instance M_bind : MBind M := fun A B k m w =>
  match m w with
  | (inl e, w') => (inl e, w')
  | (inr a, w') => k a w'
  end.

Definition throw {A} (e : exn) : M A := fun w => (inl e, w).

(** [try { m } catch (e) { h(e) }] *)
Definition catch {A} (m : M A) (h : exn -> M A) : M A := fun w =>
  match m w with
  | (inl e, w') => h e w'
  | r => r
  end.

Definition gets {A} (f : World -> A) : M A := fun w => (inr (f w), w).
Definition modify (f : World -> World) : M unit := fun w => (inr tt, f w).

Definition get_km : M KeyManager := gets w_km.
Definition upd_km (f : KeyManager -> KeyManager) : M unit :=
  modify (fun w => set_km (f (w_km w)) w).

(** [new Date()] *)
Definition now : M Z := gets w_clock.

(** [crypto.randomBytes(n)]; the temporary [Buffer] is not kept. *)
Definition randomBytes (n : nat) : M (list Z) := fun w =>
  (inr (random_bytes H (w_rng w) n), set_rng (S (w_rng w)) w).

Definition randomUUID : M string := fun w =>
  (inr (random_uuid H (w_rng w)), set_rng (S (w_rng w)) w).

Definition alloc (b : buf) : M loc := fun w =>
  (inr (w_next_loc w), set_next_loc (w_next_loc w + 1)%N (set_heap (<[w_next_loc w := b]> (w_heap w)) w)).

Definition read_buf (l : loc) : M buf := fun w =>
  match w_heap w !! l with
  | Some b => (inr b, w)
  | None => (inl (JsTypeError "invalid buffer"), w)
  end.

Definition write_buf (l : loc) (b : buf) : M unit :=
  modify (fun w => set_heap (<[l := b]> (w_heap w)) w).

(** [setInterval] / [clearInterval] *)
Definition setInterval : M N := fun w =>
  (inr (w_next_timer w),
   set_timers ({[w_next_timer w]} ∪ w_timers w) (w_next_timer w + 1)%N w).

Definition clearInterval (t : N) : M unit :=
  modify (fun w => set_timers (w_timers w ∖ {[t]}) (w_next_timer w) w).

(** ** KeyManager field updates (this.f = x) *)

Definition with_currentVersion (v : Z) (k : KeyManager) : KeyManager :=
  mkKM (masterKeyBuffer k) (rotationIntervalMs k) v (previousVersion k) (currentKey k)
       (previousKey k) (rotationTimer k) (lastRotationTime k).
Definition with_previousVersion (v : option Z) (k : KeyManager) : KeyManager :=
  mkKM (masterKeyBuffer k) (rotationIntervalMs k) (currentVersion k) v (currentKey k)
       (previousKey k) (rotationTimer k) (lastRotationTime k).
Definition with_currentKey (c : option loc) (k : KeyManager) : KeyManager :=
  mkKM (masterKeyBuffer k) (rotationIntervalMs k) (currentVersion k) (previousVersion k) c
       (previousKey k) (rotationTimer k) (lastRotationTime k).
Definition with_previousKey (p : option loc) (k : KeyManager) : KeyManager :=
  mkKM (masterKeyBuffer k) (rotationIntervalMs k) (currentVersion k) (previousVersion k)
       (currentKey k) p (rotationTimer k) (lastRotationTime k).
Definition with_rotationTimer (t : option N) (k : KeyManager) : KeyManager :=
  mkKM (masterKeyBuffer k) (rotationIntervalMs k) (currentVersion k) (previousVersion k)
       (currentKey k) (previousKey k) t (lastRotationTime k).
Definition with_lastRotationTime (t : option Z) (k : KeyManager) : KeyManager :=
  mkKM (masterKeyBuffer k) (rotationIntervalMs k) (currentVersion k) (previousVersion k)
       (currentKey k) (previousKey k) (rotationTimer k) t.

(** ** KeyManager *)

(** [Buffer.from(`vault-key-v${v}`)] *)
Definition key_info (v : Z) : string := "vault-key-v" +:+ js_num_str v.

(** [crypto.hkdfSync('sha256', this.masterKeyBuffer, salt, info, 32)],
    returning a fresh [ArrayBuffer]. *)
Definition derive_key (salt : list Z) (v : Z) : M loc :=
  k ← get_km;
  mb ← read_buf (masterKeyBuffer k);
  match hkdf_sync H (buf_bytes mb) salt (key_info v) 32 with
  | Some bytes => alloc (mkBuf ArrayBuf bytes)
  | None => throw (JsError "hkdf failed")
  end.

(** [_generateInitialKey()] *)
Definition generateInitialKey : M unit :=
  salt ← randomBytes 32;
  k ← get_km;
  key ← derive_key salt (currentVersion k);
  upd_km (with_currentKey (Some key));;
  t ← now;
  upd_km (with_lastRotationTime (Some t)).

(** [_startRotation()]; the callback of the interval is [rotateKey]. *)
Definition startRotation : M unit :=
  t ← setInterval;
  upd_km (with_rotationTimer (Some t)).

Definition msg_master_key : string := "Master key must be 64 hex characters (32 bytes)".

(** [new KeyManager(masterKey, rotationIntervalMs)]; [masterKey] is
    [undefined] or the UTF-16 code units of a string, and the new object
    becomes the world's key manager. *)
Definition KeyManager_new (masterKey : option (list Z)) (interval : option Z) : M unit :=
  let ms := default (60 * 60 * 1000) interval in
  match masterKey with
  | Some s =>
      if negb (Nat.eqb (length s) 0) && Nat.eqb (length s) 64 then
        mb ← alloc (mkBuf NodeBuffer (hex_decode s));
        modify (set_km (mkKM mb ms 1 None None None None None));;
        generateInitialKey;;
        startRotation
      else throw (JsError msg_master_key)
  | None => throw (JsError msg_master_key)
  end.

(** [rotateKey()] *)
Definition rotateKey : M unit :=
  k ← get_km;
  upd_km (with_previousKey (currentKey k));;
  k ← get_km;
  upd_km (with_previousVersion (Some (currentVersion k)));;
  k ← get_km;
  upd_km (with_currentVersion (currentVersion k + 1));;
  salt ← randomBytes 32;
  k ← get_km;
  key ← derive_key salt (currentVersion k);
  upd_km (with_currentKey (Some key));;
  t ← now;
  upd_km (with_lastRotationTime (Some t)).

(** [getCurrentKey()] *)
Definition getCurrentKey : M (option loc * Z) :=
  k ← get_km; mret (currentKey k, currentVersion k).

(** [getKeyByVersion(version)]; an [ArrayBuffer] is always truthy. *)
Definition getKeyByVersion (version : Z) : M (option loc) :=
  k ← get_km;
  if Z.eqb version (currentVersion k) then mret (currentKey k)
  else if (bool_decide (Some version = previousVersion k)) && bool_decide (is_Some (previousKey k))
  then mret (previousKey k)
  else mret None.

(** [isVersionSupported(version)] *)
Definition isVersionSupported (version : Z) : M bool :=
  k ← get_km;
  mret (Z.eqb version (currentVersion k) ||
        (bool_decide (Some version = previousVersion k) && bool_decide (previousKey k ≠ None))).

(** [getKeyInfo()]: (currentVersion, previousVersion, lastRotationTime,
    nextRotationTime); [null.getTime()] throws. *)
Definition getKeyInfo : M (Z * option Z * Z * Z) :=
  k ← get_km;
  match lastRotationTime k with
  | Some t => mret (currentVersion k, previousVersion k, t, t + rotationIntervalMs k)
  | None => throw (JsTypeError "Cannot read properties of null (reading 'getTime')")
  end.

(** [forceRotation()] *)
Definition forceRotation : M unit := rotateKey.

(** [destroy()] *)
Definition zero_if_buffer (o : option loc) : M unit :=
  match o with
  | Some l =>
      b ← read_buf l;
      if is_buffer b then write_buf l (fill0 b) else mret ()
  | None => mret ()
  end.

Definition KeyManager_destroy : M unit :=
  k ← get_km;
  (match rotationTimer k with
   | Some t => clearInterval t;; upd_km (with_rotationTimer None)
   | None => mret ()
   end);;
  k ← get_km;
  zero_if_buffer (currentKey k);;
  k ← get_km;
  zero_if_buffer (previousKey k);;
  k ← get_km;
  zero_if_buffer (Some (masterKeyBuffer k)).

(** ** EncryptionService *)

Record Encrypted := mkEncrypted { enc_ciphertext : list Z; enc_iv : list Z; enc_tag : list Z }.
Record Serialized := mkSerialized { ser_ciphertext : b64 H; ser_iv : b64 H; ser_tag : b64 H }.

(** The bytes of the key object handed to [createCipheriv]; [null] is
    refused by Node. *)
Definition key_bytes (key : option loc) : M (list Z) :=
  match key with
  | Some l => b ← read_buf l; mret (buf_bytes b)
  | None => throw (JsTypeError "The key argument must be of type KeyObject")
  end.

(** [encrypt(data, key)] *)
Definition encrypt (data : val H) (key : option loc) : M Encrypted :=
  catch
    (iv ← randomBytes 12;
     match json_stringify H data with
     | None => throw (JsTypeError "The first argument must be of type string ...")
     | Some plaintext =>
         kb ← key_bytes key;
         match gcm_encrypt H kb iv (utf8_encode H plaintext) with
         | Some (ciphertext, tag) => mret (mkEncrypted ciphertext iv tag)
         | None => throw (JsError "cipher error")
         end
     end)
    (fun _ => throw (JsError "Encryption operation failed")).

Definition auth_failure_node_msg : string := "Unsupported state or unable to authenticate data".
Definition msg_auth_failed : string := "Decryption failed: Invalid key or tampered data".
Definition msg_decrypt_failed : string := "Decryption operation failed".

(** [decrypt(ciphertext, iv, tag, key)] *)
Definition decrypt (ciphertext iv tag : list Z) (key : option loc) : M (val H) :=
  catch
    (kb ← key_bytes key;
     match gcm_decrypt H kb iv ciphertext tag with
     | inl node_msg => throw (JsError node_msg)
     | inr plaintextBuffer =>
         match json_parse H (utf8_decode H plaintextBuffer) with
         | Some data => mret data
         | None => throw (JsError "Unexpected token in JSON")
         end
     end)
    (fun e =>
       if str_includes (exn_message e) auth_failure_node_msg
       then throw (JsError msg_auth_failed)
       else throw (JsError msg_decrypt_failed)).

Definition serialize (e : Encrypted) : Serialized :=
  mkSerialized (base64_encode H (enc_ciphertext e)) (base64_encode H (enc_iv e))
               (base64_encode H (enc_tag e)).

Definition deserialize (s : Serialized) : Encrypted :=
  mkEncrypted (base64_decode H (ser_ciphertext s)) (base64_decode H (ser_iv s))
              (base64_decode H (ser_tag s)).

(** ** DataStore *)

(** [dataStore.store(encryptedData, keyVersion)], metadata defaulting to [{}] *)
Definition DataStore_store (s : Serialized) (version : Z) : M string :=
  id ← randomUUID;
  t ← now;
  let record := mkRecord id version (ser_ciphertext s) (ser_iv s) (ser_tag s) t [] in
  modify (fun w => set_storage (<[id := record]> (w_storage w)) w);;
  mret id.

(** [dataStore.retrieve(id)] *)
Definition DataStore_retrieve (id : string) : M (option StoredRecord) :=
  gets (fun w => w_storage w !! id).

Definition DataStore_clear : M unit := modify (set_storage ∅).

(** ** VaultService *)

(** [new VaultService(masterKey, rotationIntervalMs)] *)
Definition VaultService_new (masterKey : option (list Z)) (interval : option Z) : M unit :=
  KeyManager_new masterKey interval;;
  modify (set_storage ∅).

Record StoreResult := mkStoreResult { sr_id : string; sr_keyVersion : Z; sr_timestamp : Z }.

(** [store(data)] *)
Definition store (data : val H) : M StoreResult :=
  catch
    (kv ← getCurrentKey;
     let '(key, version) := kv in
     encryptedData ← encrypt data key;
     let serialized := serialize encryptedData in
     id ← DataStore_store serialized version;
     t ← now;
     mret (mkStoreResult id version t))
    (fun _ => throw (JsError "Failed to store data")).

Definition msg_not_found : string := "Record not found".

Definition msg_version_expired (v cur : Z) (prev : option Z) : string :=
  "Key version " +:+ js_num_str v +:+ " is no longer supported. " +:+
  "Current: " +:+ js_num_str cur +:+ ", " +:+
  "Previous: " +:+ js_opt_num_str prev.

Record RetrieveResult := mkRetrieveResult {
  rr_data : val H; rr_keyVersion : Z; rr_encryptedAt : Z }.

(** [retrieve(id)]; the [catch] rethrows the error unchanged. *)
Definition retrieve (id : string) : M RetrieveResult :=
  catch
    (record ← DataStore_retrieve id;
     match record with
     | None => throw (JsError msg_not_found)
     | Some record =>
         supported ← isVersionSupported (keyVersion record);
         (if (supported : bool) then mret tt else
            cur ← getCurrentKey;
            info ← getKeyInfo;
            throw (JsError (msg_version_expired (keyVersion record) cur.2 info.1.1.2))) ≫= (fun _ =>
         key ← getKeyByVersion (keyVersion record);
         match key with
         | None => throw (JsError "Decryption key not available")
         | Some _ =>
             let encryptedData :=
               deserialize (mkSerialized (rec_ciphertext record) (rec_iv record) (rec_tag record)) in
             decryptedData ← decrypt (enc_ciphertext encryptedData) (enc_iv encryptedData)
                                     (enc_tag encryptedData) key;
             mret (mkRetrieveResult decryptedData (keyVersion record) (rec_timestamp record))
         end)
     end)
    (fun e => throw e).

(** [vault.forceRotation()] *)
Definition Vault_forceRotation : M unit := forceRotation.

(** [vault.destroy()] *)
Definition Vault_destroy : M unit := KeyManager_destroy;; DataStore_clear.

(** ** DataStore: the remaining methods *)

(** [dataStore.delete(id)]: [Map.prototype.delete] reports whether the key
    was there. *)
Definition DataStore_delete (id : string) : M bool :=
  s ← gets w_storage;
  let deleted := bool_decide (is_Some (s !! id)) in
  modify (set_storage (delete id s));;
  mret deleted.

(** [dataStore.getAllIds()]: [Array.from(this.storage.keys())]. The map's
    enumeration order stands for the [Map]'s insertion order; the
    properties proved about it do not depend on the order. *)
Definition DataStore_getAllIds : M (list string) :=
  gets (fun w => (map_to_list (w_storage w)).*1).

(** [records.forEach(record => { versionCounts[record.keyVersion] =
    (versionCounts[record.keyVersion] || 0) + 1; })] *)
Definition count_versions (records : list StoredRecord) : gmap Z nat :=
  foldl (fun versionCounts r =>
           <[keyVersion r := (default 0 (versionCounts !! keyVersion r) + 1)%nat]> versionCounts)
        ∅ records.

(** [records.length > 0 ? records.reduce((oldest, r) => r.timestamp <
    oldest.timestamp ? r : oldest).timestamp : null] *)
Definition oldest_timestamp (records : list StoredRecord) : option Z :=
  match records with
  | [] => None
  | r0 :: rs =>
      Some (rec_timestamp
              (foldl (fun oldest r => if rec_timestamp r <? rec_timestamp oldest then r else oldest)
                     r0 rs))
  end.

Record StoreStats := mkStoreStats {
  totalRecords : nat;
  recordsByVersion : gmap Z nat;
  oldestRecord : option Z;
}.

(** [dataStore.getStats()]; [records] is [Array.from(this.storage.values())]. *)
Definition DataStore_getStats : M StoreStats :=
  s ← gets w_storage;
  let records := (map_to_list s).*2 in
  mret (mkStoreStats (size s) (count_versions records) (oldest_timestamp records)).

(** [vault.getStats()] *)
Definition VaultService_getStats : M ((Z * option Z * Z * Z) * StoreStats) :=
  keyInfo ← getKeyInfo;
  storeStats ← DataStore_getStats;
  mret (keyInfo, storeStats).

(** ** The HTTP API (server.js) *)

(** The JSON bodies the routes send. *)
Inductive ApiBody :=
| BodyStore (r : StoreResult)
| BodyRetrieve (r : RetrieveResult)
| BodyStats (keyInfo : Z * option Z * Z * Z) (storeStats : StoreStats)
| BodyRotate (message : string) (keyInfo : Z * option Z * Z * Z)
| BodyError (error : string)
| BodyErrorMessage (error message : string)
| BodyErrorId (error id : string).

(** [res.status(code).json(body)]; [res.json(body)] is status 200. *)
Definition Response : Type := (Z * ApiBody)%type.

(** JavaScript truthiness of a parsed JSON value ([!data]). *)
Context (truthy : val H -> bool).

(** [POST /api/vault/store]: [data] is [req.body.data], [None] when the
    field is absent. *)
Definition post_store (data : option (val H)) : M Response :=
  catch
    (match data with
     | Some d =>
         if truthy d then
           result ← store d;
           mret (201, BodyStore result)
         else mret (400, BodyError "Missing required field: data")
     | None => mret (400, BodyError "Missing required field: data")
     end)
    (fun e => mret (500, BodyErrorMessage "Failed to store data" (exn_message e))).

(** [GET /api/vault/retrieve?id=...]: [id] is the string [req.query.id],
    [None] when absent. *)
Definition get_retrieve (id : option string) : M Response :=
  match id with
  | None | Some EmptyString => mret (400, BodyError "Missing required query parameter: id")
  | Some s =>
      catch
        (result ← retrieve s;
         mret (200, BodyRetrieve result))
        (fun e =>
           if String.eqb (exn_message e) "Record not found" then
             mret (404, BodyErrorId "Record not found" s)
           else if str_includes (exn_message e) "no longer supported" then
             mret (410, BodyErrorMessage "Key version expired" (exn_message e))
           else mret (500, BodyErrorMessage "Failed to retrieve data" (exn_message e)))
  end.

(** [GET /api/vault/stats] *)
Definition get_stats : M Response :=
  catch
    (stats ← VaultService_getStats;
     mret (200, BodyStats stats.1 stats.2))
    (fun _ => mret (500, BodyError "Failed to get stats")).

(** [POST /api/vault/rotate] *)
Definition post_rotate : M Response :=
  catch
    (Vault_forceRotation;;
     stats ← VaultService_getStats;
     mret (200, BodyRotate "Key rotation completed" stats.1))
    (fun _ => mret (500, BodyError "Failed to rotate key")).


End Model.

(** ** Host laws used by the round-trip property *)

(** Properties of Node's primitives that the vault relies on: AES-256-GCM
    accepts a 32-byte key and a 12-byte IV and decrypts what it encrypted,
    base64 and UTF-8 decode what they encode (JSON text is well-formed
    UTF-16), [randomBytes(n)] has [n] bytes, HKDF output has the requested
    length. *)
Record HostLaws (H : Host) : Prop := {
  law_gcm : forall k iv p, length k = 32%nat -> length iv = 12%nat ->
    exists c t, gcm_encrypt H k iv p = Some (c, t) /\ gcm_decrypt H k iv c t = inr p;
  law_base64 : forall b, base64_decode H (base64_encode H b) = b;
  law_utf8 : forall v s, json_stringify H v = Some s -> utf8_decode H (utf8_encode H s) = s;
  law_random_bytes : forall i n, length (random_bytes H i n) = n;
  law_hkdf : forall ikm salt info n out, hkdf_sync H ikm salt info n = Some out -> length out = n;
}.

(** A value survives [JSON.parse(JSON.stringify(v))]. *)
Definition json_serializable (H : Host) (v : val H) : Prop :=
  exists s, json_stringify H v = Some s /\ json_parse H s = Some v.

(** ** Tampering with a stored record *)

(** Flipping bit [i] of a byte string: bit [i mod 8] of byte [i / 8]. *)
Definition flip_bit (bs : list Z) (i : nat) : list Z :=
  alter (fun b => Z.lxor b (2 ^ Z.of_nat (i mod 8))) (i / 8)%nat bs.

(** [(iv', c', t')] is [(iv, c, t)] with one bit of the IV, of the
    ciphertext or of the tag flipped. *)
Inductive one_bit_flip (iv c t : list Z) : list Z -> list Z -> list Z -> Prop :=
| flip_iv i : (i < 8 * length iv)%nat -> one_bit_flip iv c t (flip_bit iv i) c t
| flip_ciphertext i : (i < 8 * length c)%nat -> one_bit_flip iv c t iv (flip_bit c i) t
| flip_tag i : (i < 8 * length t)%nat -> one_bit_flip iv c t iv c (flip_bit t i).

(** Integrity of AES-256-GCM as Node reports it: once [(iv, c, t)]
    authenticates under [k], the same triple with one bit flipped makes
    [decipher.final()] throw Node's authentication error. For a 12-byte IV
    this holds of every tag and IV flip, and of every ciphertext flip under
    a key whose GHASH subkey is not zero. *)
Definition gcm_rejects_bit_flips (H : Host) : Prop :=
  forall k iv c t p iv' c' t',
    gcm_decrypt H k iv c t = inr p -> one_bit_flip iv c t iv' c' t' ->
    exists m, gcm_decrypt H k iv' c' t' = inl m /\ str_includes m auth_failure_node_msg = true.

(** The record [rec] with its base64 ciphertext, IV and tag replaced by the
    encodings of [c], [iv] and [t]. *)
Definition tamper (H : Host) (rec : StoredRecord H) (iv c t : list Z) : StoredRecord H :=
  mkRecord H (rec_id H rec) (keyVersion H rec) (base64_encode H c) (base64_encode H iv)
    (base64_encode H t) (rec_timestamp H rec) (rec_metadata H rec).

(** ** A concrete host for evaluating the code

    Values are naturals written as one-number JSON texts; the cipher keeps
    the plaintext and tags it with key, IV and ciphertext, so it fails to
    authenticate anything else; HKDF, when [hkdf_ok] allows the info label,
    returns the salt followed by the key material. *)

Definition toy_gcm_encrypt (k iv p : list Z) : option (list Z * list Z) :=
  if Nat.eqb (length k) 32 && Nat.eqb (length iv) 12 then Some (p, k ++ iv ++ p) else None.

Definition toy_gcm_decrypt (k iv c t : list Z) : string + list Z :=
  if bool_decide (t = k ++ iv ++ c) then inr c else inl auth_failure_node_msg.

Definition toy_parse (t : list Z) : option nat :=
  match t with [z] => if Z.leb 0 z then Some (Z.to_nat z) else None | _ => None end.

Definition toy_host (hkdf_ok : string -> bool) : Host := {|
  val := nat; text := list Z; b64 := list Z;
  random_bytes i n := repeat (Z.of_nat i + 1) n;
  random_uuid i := "id-" +:+ pretty (N.of_nat i);
  hkdf_sync ikm salt info n := if hkdf_ok info then Some (take n (salt ++ ikm ++ repeat 0 n)) else None;
  gcm_encrypt := toy_gcm_encrypt;
  gcm_decrypt := toy_gcm_decrypt;
  json_stringify v := Some [Z.of_nat v];
  json_parse := toy_parse;
  utf8_encode t := t; utf8_decode b := b;
  base64_encode b := b; base64_decode s := s;
|}.

Definition node_host : Host := toy_host (fun _ => true).

(** HKDF throws for the version-2 label. *)
Definition failing_host : Host := toy_host (fun info => negb (String.eqb info "vault-key-v2")).

(** A process before the vault is created. *)
Definition w_init (H : Host) : World H :=
  mkWorld H ∅ 0%N ∅ 0%N 0 1000 (mkKM 0%N 0 0 None None None None None) ∅.

(** [process.env.MASTER_ENCRYPTION_KEY]: 64 hex digits, and 64 characters
    that are not hex digits. *)
Definition hex_key : list Z := repeat 55 64.
Definition non_hex_key : list Z := repeat 122 64.

Definition vault_of (H : Host) (mk : list Z) : World H :=
  snd (VaultService_new H (Some mk) None (w_init H)).

Definition km_of (H : Host) (mk : list Z) : World H :=
  snd (KeyManager_new H (Some mk) None (w_init H)).

(** ** States a running vault can be in *)

Inductive reachable (H : Host) : World H -> Prop :=
| reach_km_new mk iv w0 w : KeyManager_new H mk iv w0 = (inr tt, w) -> reachable H w
| reach_vault_new mk iv w0 w : VaultService_new H mk iv w0 = (inr tt, w) -> reachable H w
| reach_rotate w : reachable H w -> reachable H (snd (rotateKey H w))
| reach_store w d : reachable H w -> reachable H (snd (store H d w))
| reach_retrieve w id : reachable H w -> reachable H (snd (retrieve H id w)).

(** The key-slot invariant of a live KeyManager. *)
Definition km_inv (k : KeyManager) : Prop :=
  currentKey k <> None /\
  lastRotationTime k <> None /\
  (forall p, previousVersion k = Some p -> currentVersion k = p + 1) /\
  (previousKey k <> None -> previousVersion k <> None).

(** [n] calls of [forceRotation()], each made by a caller that catches
    what the call throws. *)
Fixpoint rotate_n (H : Host) (n : nat) : M H unit :=
  match n with
  | O => mret tt
  | S n' => catch H (forceRotation H) (fun _ => mret tt) ≫= fun _ => rotate_n H n'
  end.

(** * Proofs *)

(** a buffer that [fill(0)] would not change, or no buffer *)
Definition clean (h : gmap loc buf) (l : loc) : Prop :=
  forall b, h !! l = Some b -> is_buffer b = true -> fill0 b = b.

Section Proofs.

Context (H : Host).

Ltac run_m :=
  repeat (unfold mbind, M_bind, mret, M_ret, throw, catch, gets, modify, get_km, upd_km,
           now, randomBytes, randomUUID, alloc, read_buf, write_buf,
           set_heap, set_next_loc, set_timers, set_rng, set_km, set_storage in *);
  cbn -[js_num_str key_info] in *.

(** Observable effect of [rotateKey]: the slot shuffle and the version
    bump happen before the derivation, whatever its outcome. *)
Lemma rotateKey_effect (w : World H) :
  let k := w_km H w in
  let r := rotateKey H w in
  let k' := w_km H (snd r) in
  masterKeyBuffer k' = masterKeyBuffer k /\
  rotationIntervalMs k' = rotationIntervalMs k /\
  currentVersion k' = currentVersion k + 1 /\
  previousVersion k' = Some (currentVersion k) /\
  previousKey k' = currentKey k /\
  rotationTimer k' = rotationTimer k /\
  w_storage H (snd r) = w_storage H w /\
  w_timers H (snd r) = w_timers H w /\
  w_clock H (snd r) = w_clock H w /\
  (forall l, (l < w_next_loc H w)%N -> w_heap H (snd r) !! l = w_heap H w !! l) /\
  match fst r with
  | inr _ => currentKey k' = Some (w_next_loc H w) /\
             lastRotationTime k' = Some (w_clock H w) /\
             (exists bytes, w_heap H (snd r) !! w_next_loc H w = Some (mkBuf ArrayBuf bytes) /\
               hkdf_sync H (default [] (buf_bytes <$> w_heap H w !! masterKeyBuffer k))
                 (random_bytes H (w_rng H w) 32) (key_info (currentVersion k + 1)) 32 = Some bytes)
  | inl _ => currentKey k' = currentKey k /\
             lastRotationTime k' = lastRotationTime k /\
             w_heap H (snd r) = w_heap H w
  end.
Proof.
  unfold rotateKey, derive_key. run_m.
  destruct (w_heap H w !! masterKeyBuffer (w_km H w)) as [mb|] eqn:Hm; cbn.
  - destruct (hkdf_sync H _ _ _ _) as [bytes|] eqn:Hk; cbn.
    + repeat split; try reflexivity.
      * intros l Hl. rewrite lookup_insert_ne; [reflexivity|lia].
      * exists bytes. rewrite lookup_insert_eq. split; reflexivity.
    + repeat split; reflexivity.
  - repeat split; reflexivity.
Qed.

Lemma KeyManager_new_ok mk iv (w0 w1 : World H) :
  KeyManager_new H mk iv w0 = (inr tt, w1) ->
  exists s l bytes t, mk = Some s /\ length s = 64%nat /\
    currentVersion (w_km H w1) = 1 /\ previousVersion (w_km H w1) = None /\
    previousKey (w_km H w1) = None /\
    currentKey (w_km H w1) = Some l /\ lastRotationTime (w_km H w1) = Some (w_clock H w0) /\
    w_heap H w1 !! l = Some (mkBuf ArrayBuf bytes) /\
    hkdf_sync H (hex_decode s) (random_bytes H (w_rng H w0) 32) (key_info 1) 32 = Some bytes /\
    rotationTimer (w_km H w1) = Some t /\ t ∈ w_timers H w1 /\
    w_heap H w1 !! masterKeyBuffer (w_km H w1) = Some (mkBuf NodeBuffer (hex_decode s)) /\
    w_storage H w1 = w_storage H w0 /\ w_clock H w1 = w_clock H w0.
Proof.
  intros Hn. unfold KeyManager_new in Hn.
  destruct mk as [s|]; [|discriminate].
  destruct (negb _ && _) eqn:Hlen; [|discriminate].
  unfold generateInitialKey, derive_key, startRotation, setInterval in Hn. run_m.
  rewrite lookup_insert_eq in Hn. cbn in Hn.
  destruct (hkdf_sync H _ _ _ _) as [bytes|] eqn:Hk; [|discriminate].
  cbn in Hn. injection Hn as <-. cbn.
  apply andb_prop in Hlen as [_ Hlen]. apply Nat.eqb_eq in Hlen.
  eexists s, _, bytes, _.
  rewrite lookup_insert_eq, lookup_insert_ne, lookup_insert_eq by lia.
  repeat split; try reflexivity; try assumption. set_solver.
Qed.

(** A vault key manager that exists is a freshly constructed one. *)
Lemma VaultService_new_ok mk iv (w0 w1 : World H) :
  VaultService_new H mk iv w0 = (inr tt, w1) ->
  exists w, KeyManager_new H mk iv w0 = (inr tt, w) /\ w1 = set_storage H ∅ w.
Proof.
  unfold VaultService_new. run_m.
  destruct (KeyManager_new H mk iv w0) as [[e|[]] w] eqn:E; [discriminate|].
  intros Hw. injection Hw as <-. eauto.
Qed.

(** [store] only consumes randomness and writes the data store. *)
Lemma store_frame (d : val H) (w : World H) :
  let w' := snd (store H d w) in
  w_km H w' = w_km H w /\ w_heap H w' = w_heap H w /\ w_next_loc H w' = w_next_loc H w /\
  w_timers H w' = w_timers H w /\ w_clock H w' = w_clock H w.
Proof.
  unfold store, getCurrentKey, encrypt, key_bytes, DataStore_store. run_m.
  repeat (case_match; simplify_eq/=); repeat split; reflexivity.
Qed.

(** [retrieve] reads and changes nothing. *)
Lemma retrieve_frame (id : string) (w : World H) :
  snd (retrieve H id w) = w.
Proof.
  unfold retrieve, DataStore_retrieve, isVersionSupported, getCurrentKey, getKeyInfo,
    getKeyByVersion, decrypt, key_bytes. run_m.
  repeat (case_match; simplify_eq/=); reflexivity.
Qed.


Lemma rotateKey_inv (w : World H) :
  km_inv (w_km H w) -> km_inv (w_km H (snd (rotateKey H w))).
Proof.
  intros (Hc & Ht & Hp & Hpk).
  pose proof (rotateKey_effect w) as (_ & _ & Hcv & Hpv & Hpk' & _ & _ & _ & _ & _ & Hr).
  cbn zeta in *. unfold km_inv. rewrite Hcv, Hpv, Hpk'.
  destruct (fst (rotateKey H w)).
  - destruct Hr as (-> & -> & _). repeat split; try assumption.
    + intros p Hs. injection Hs as <-. reflexivity.
    + discriminate.
  - destruct Hr as (-> & -> & _). repeat split; try congruence.
Qed.

Lemma reachable_inv (w : World H) : reachable H w -> km_inv (w_km H w).
Proof.
  induction 1 as [mk iv w0 w Hn|mk iv w0 w Hn|w _ IH|w d _ IH|w id _ IH].
  - apply KeyManager_new_ok in Hn as (s & l & bytes & t & _ & _ & Hv & Hpv & Hpk & Hc & Ht & _).
    unfold km_inv. rewrite Hv, Hpv, Hpk, Hc, Ht. repeat split; congruence.
  - apply VaultService_new_ok in Hn as (w' & Hn & ->).
    apply KeyManager_new_ok in Hn as (s & l & bytes & t & _ & _ & Hv & Hpv & Hpk & Hc & Ht & _).
    unfold km_inv. cbn. rewrite Hv, Hpv, Hpk, Hc, Ht. repeat split; congruence.
  - by apply rotateKey_inv.
  - by rewrite (proj1 (store_frame d w)).
  - by rewrite retrieve_frame.
Qed.

Lemma rotate_n_reachable n (w : World H) :
  reachable H w -> reachable H (snd (rotate_n H n w)) /\
  currentVersion (w_km H (snd (rotate_n H n w))) = currentVersion (w_km H w) + Z.of_nat n.
Proof.
  revert w. induction n as [|n IH]; intros w Hr.
  - cbn. split; [assumption|lia].
  - cbn [rotate_n]. unfold forceRotation. run_m.
    assert (Hs : snd (match rotateKey H w with
                      | (inl _, w') => (inr (), w')
                      | r => r end) = snd (rotateKey H w))
      by (destruct (rotateKey H w) as [[]]; reflexivity).
    pose proof (rotateKey_effect w) as (_ & _ & Hcv & _).
    pose proof (reach_rotate H w Hr) as Hr'.
    destruct (rotateKey H w) as [[e|[]] w'] eqn:E;
      destruct (IH w' Hr') as [IH1 IH2]; cbn in *; (split; [assumption|lia]).
Qed.

(** ** C2 *)

(** C2: the key manager starts at version 1; any sequence of rotations
    (each returning or throwing) leaves [currentVersion] one above
    [previousVersion] whenever the previous slot is set, having advanced by
    exactly one per call; every [rotateKey()] adds exactly 1. *)
Theorem rotation_version_adjacency mk iv (w0 w1 : World H) (n : nat) :
  KeyManager_new H mk iv w0 = (inr tt, w1) ->
  currentVersion (w_km H w1) = 1 /\
  (let k := w_km H (snd (rotate_n H n w1)) in
   currentVersion k = 1 + Z.of_nat n /\
   (forall p, previousVersion k = Some p -> currentVersion k = p + 1) /\
   (previousKey k <> None -> previousVersion k = Some (currentVersion k - 1))) /\
  (forall w, currentVersion (w_km H (snd (rotateKey H w))) = currentVersion (w_km H w) + 1).
Proof.
  intros Hn.
  pose proof (reach_km_new H mk iv w0 w1 Hn) as Hr.
  apply KeyManager_new_ok in Hn as (s & l & bytes & t & _ & _ & Hv & _).
  destruct (rotate_n_reachable n w1 Hr) as [Hr' Hcv].
  destruct (reachable_inv _ Hr') as (_ & _ & Hp & Hpk).
  split; [exact Hv|split].
  - cbn zeta. split; [lia|split; [exact Hp|]].
    intros Hne. destruct (previousVersion _) as [p|] eqn:E; [|tauto].
    rewrite (Hp p eq_refl). f_equal. lia.
  - intros w. pose proof (rotateKey_effect w) as (_ & _ & Hc & _). exact Hc.
Qed.

(** ** C3 *)

(** C3: in every reachable state [getKeyByVersion(v)] returns the current
    key for the current version, the previous key for the previous version
    when that slot is set, and [null] otherwise; [isVersionSupported(v)] is
    true exactly when [getKeyByVersion(v)] returns a key. Neither call
    changes the state. *)
Theorem getKeyByVersion_spec (w : World H) (v : Z) :
  reachable H w ->
  let k := w_km H w in
  (v = currentVersion k -> getKeyByVersion H v w = (inr (currentKey k), w)) /\
  (previousVersion k = Some v -> previousKey k <> None ->
     getKeyByVersion H v w = (inr (previousKey k), w)) /\
  (v <> currentVersion k -> ~ (previousVersion k = Some v /\ previousKey k <> None) ->
     getKeyByVersion H v w = (inr None, w)) /\
  snd (isVersionSupported H v w) = w /\
  (fst (isVersionSupported H v w) = inr true <->
   exists key, fst (getKeyByVersion H v w) = inr (Some key)).
Proof.
  intros Hr. destruct (reachable_inv w Hr) as (Hc & _ & Hp & _).
  cbn zeta. unfold getKeyByVersion, isVersionSupported. run_m.
  destruct (currentKey (w_km H w)) as [c|] eqn:Ec; [|congruence].
  destruct (Z.eqb_spec v (currentVersion (w_km H w))) as [->|Hne].
  - split; [|split; [|split; [|split]]].
    + reflexivity.
    + intros Hpv. specialize (Hp _ Hpv). lia.
    + intros Hne. congruence.
    + reflexivity.
    + cbn. split; eauto.
  - cbn. split; [|split; [|split; [|split]]].
    + intros Heq. congruence.
    + intros Hpv Hpk.
      destruct (previousKey (w_km H w)) as [pk|]; [|congruence].
      rewrite (bool_decide_true (Some v = _)) by congruence.
      rewrite bool_decide_true by (eexists; reflexivity). reflexivity.
    + intros _ Hnot.
      destruct (bool_decide_reflect (Some v = previousVersion (w_km H w))) as [Hv|]; [|reflexivity].
      rewrite bool_decide_false; [reflexivity|].
      intros [x Hx]. apply Hnot. split; congruence.
    + reflexivity.
    + destruct (bool_decide_reflect (Some v = previousVersion (w_km H w))); cbn; [|split; [discriminate|intros [? ?]; discriminate]].
      destruct (previousKey (w_km H w)) as [p|] eqn:Ep.
      * rewrite !bool_decide_true by (try eexists; congruence). split; eauto.
      * rewrite !bool_decide_false by (try (intros [? ?]); congruence).
        split; [discriminate|intros [? ?]; discriminate].
Qed.


(** What a successful [store] wrote. *)
Lemma store_ok (d : val H) (w w1 : World H) (r : StoreResult) :
  store H d w = (inr r, w1) ->
  exists l kb s c t,
    currentKey (w_km H w) = Some l /\ w_heap H w !! l = Some kb /\
    json_stringify H d = Some s /\
    gcm_encrypt H (buf_bytes kb) (random_bytes H (w_rng H w) 12) (utf8_encode H s) = Some (c, t) /\
    sr_keyVersion r = currentVersion (w_km H w) /\ sr_timestamp r = w_clock H w /\
    w_storage H w1 = <[sr_id r := mkRecord H (sr_id r) (currentVersion (w_km H w))
                         (base64_encode H c) (base64_encode H (random_bytes H (w_rng H w) 12))
                         (base64_encode H t) (w_clock H w) []]> (w_storage H w).
Proof.
  unfold store, getCurrentKey, encrypt, key_bytes, DataStore_store. run_m.
  intros Hs. repeat (case_match; simplify_eq/=).
  eexists _, _, _, _, _. repeat split; eassumption || reflexivity.
Qed.

(** ** C10 *)

(** C10: a rotation, whether [rotateKey()] directly or the vault's
    [forceRotation()], leaves the data store's map (every record and the
    set of ids) exactly as it was. *)
Theorem rotation_preserves_records (w : World H) :
  w_storage H (snd (rotateKey H w)) = w_storage H w /\
  w_storage H (snd (Vault_forceRotation H w)) = w_storage H w.
Proof.
  pose proof (rotateKey_effect w) as (_ & _ & _ & _ & _ & _ & Hs & _).
  split; exact Hs.
Qed.

(** ** C5 *)

(** C5: a record stored under version V, after two rotations (each
    returning or throwing), is refused by [retrieve] with the
    version-expired error reporting current V+2 and previous V+1; that
    error differs from the not-found and the decryption errors. *)
Theorem two_rotation_expiry (w w1 : World H) (d : val H) (r : StoreResult) :
  reachable H w -> store H d w = (inr r, w1) ->
  let w3 := snd (rotateKey H (snd (rotateKey H w1))) in
  let V := sr_keyVersion r in
  V = currentVersion (w_km H w) /\
  retrieve H (sr_id r) w3 =
    (inl (JsError (msg_version_expired V (V + 2) (Some (V + 1)))), w3) /\
  msg_version_expired V (V + 2) (Some (V + 1)) <> msg_not_found /\
  msg_version_expired V (V + 2) (Some (V + 1)) <> msg_auth_failed /\
  msg_version_expired V (V + 2) (Some (V + 1)) <> msg_decrypt_failed.
Proof.
  intros Hr Hs. cbn zeta.
  pose proof (reach_store H w d Hr) as Hr1. rewrite Hs in Hr1. cbn in Hr1.
  pose proof (proj1 (store_frame d w)) as Hkm. rewrite Hs in Hkm. cbn in Hkm.
  apply store_ok in Hs as (l & kb & s & c & t & _ & _ & _ & _ & HV & _ & Hst).
  pose proof (reach_rotate H _ (reach_rotate H w1 Hr1)) as Hr3.
  destruct (reachable_inv _ Hr3) as (_ & Hlt & _ & _).
  pose proof (rotateKey_effect w1) as (_ & _ & Hc2 & _ & _ & _ & Hs2 & _).
  pose proof (rotateKey_effect (snd (rotateKey H w1))) as (_ & _ & Hc3 & Hp3 & _ & _ & Hs3 & _).
  remember (snd (rotateKey H (snd (rotateKey H w1)))) as w3 eqn:E3.
  clear E3. rewrite Hkm in Hc2. rewrite Hc2 in Hc3, Hp3. rewrite Hs2, Hst in Hs3.
  rewrite HV.
  split; [reflexivity|]. split.
  - unfold retrieve, DataStore_retrieve, isVersionSupported, getCurrentKey, getKeyInfo. run_m.
    rewrite Hs3, lookup_insert_eq. cbn.
    rewrite Hc3, Hp3.
    replace (currentVersion (w_km H w) =? currentVersion (w_km H w) + 1 + 1) with false
      by (symmetry; apply Z.eqb_neq; lia).
    rewrite bool_decide_false by (intros Heq; injection Heq; lia). cbn.
    destruct (lastRotationTime (w_km H w3)) as [tm|]; [|congruence].
    cbn. rewrite Hc3, Hp3.
    replace (currentVersion (w_km H w) + 1 + 1) with (currentVersion (w_km H w) + 2) by lia.
    reflexivity.
  - unfold msg_version_expired, msg_not_found, msg_auth_failed, msg_decrypt_failed.
    repeat split; discriminate.
Qed.

Lemma store_then_retrieve (HL : HostLaws H) (P : val H) (w : World H) (l : loc) (kb : buf) :
  currentKey (w_km H w) = Some l -> w_heap H w !! l = Some kb ->
  length (buf_bytes kb) = 32%nat -> json_serializable H P ->
  exists r w2, store H P w = (inr r, w2) /\
    sr_keyVersion r = currentVersion (w_km H w) /\ sr_timestamp r = w_clock H w /\
    retrieve H (sr_id r) w2 = (inr (mkRetrieveResult H P (sr_keyVersion r) (sr_timestamp r)), w2).
Proof.
  intros Hc Hh Hlen (s & Hs & Hp).
  destruct (@law_gcm H HL (buf_bytes kb) (random_bytes H (w_rng H w) 12) (utf8_encode H s))
    as (c & t & He & Hd); [assumption|apply (law_random_bytes H HL)|].
  unfold store, getCurrentKey, encrypt, key_bytes, DataStore_store. run_m.
  rewrite Hc. cbn. rewrite Hs. cbn. setoid_rewrite Hh. cbn. rewrite He. cbn.
  eexists _, _. split; [reflexivity|]. split; [reflexivity|]. split; [reflexivity|].
  unfold retrieve, DataStore_retrieve, isVersionSupported, getKeyByVersion, decrypt, key_bytes. run_m.
  rewrite lookup_insert_eq. cbn. rewrite Z.eqb_refl. cbn. rewrite Hc. cbn.
  rewrite !(law_base64 H HL), !Z.eqb_refl. cbn. setoid_rewrite Hh. cbn.
  rewrite Hd. cbn. rewrite (law_utf8 H HL P s Hs), Hp. reflexivity.
Qed.

(** ** C1 *)

(** C1: in a freshly constructed vault, [store(P)] of a JSON-serializable
    value succeeds (under version 1) and [retrieve] of the returned id
    yields [P] as its data. *)
Theorem store_retrieve_roundtrip (HL : HostLaws H) mk iv (w0 w1 : World H) (P : val H) :
  VaultService_new H mk iv w0 = (inr tt, w1) -> json_serializable H P ->
  exists r w2, store H P w1 = (inr r, w2) /\ sr_keyVersion r = 1 /\
    fst (retrieve H (sr_id r) w2) = inr (mkRetrieveResult H P (sr_keyVersion r) (sr_timestamp r)).
Proof.
  intros Hn Hser.
  apply VaultService_new_ok in Hn as (w & Hn & ->).
  apply KeyManager_new_ok in Hn as (s & l & bytes & t & _ & _ & Hv & _ & _ & Hc & _ & Hh & Hk & _).
  apply (law_hkdf H HL) in Hk.
  destruct (store_then_retrieve HL P (set_storage H ∅ w) l (mkBuf ArrayBuf bytes))
    as (r & w2 & Hs & HV & _ & Hr); try assumption.
  exists r, w2. split; [assumption|]. split.
  - rewrite HV. exact Hv.
  - rewrite Hr. reflexivity.
Qed.


(** ** C6 *)

(** C6 (as the code does it): when [rotateKey()] throws, the slots have
    already been shuffled and the version bumped: [previousKey] and
    [previousVersion] hold the old current key and version and
    [currentVersion] is one higher, while [currentKey], [lastRotationTime],
    the master key and the timer keep their old values. *)
Theorem rotateKey_failure_state (w w' : World H) (e : exn) :
  rotateKey H w = (inl e, w') ->
  let k := w_km H w in
  let k' := w_km H w' in
  previousKey k' = currentKey k /\ previousVersion k' = Some (currentVersion k) /\
  currentVersion k' = currentVersion k + 1 /\ currentKey k' = currentKey k /\
  lastRotationTime k' = lastRotationTime k /\ masterKeyBuffer k' = masterKeyBuffer k /\
  rotationTimer k' = rotationTimer k.
Proof.
  intros Hr.
  pose proof (rotateKey_effect w) as (Hm & _ & Hcv & Hpv & Hpk & Ht & _ & _ & _ & _ & Hrest).
  rewrite Hr in *. cbn in *. destruct Hrest as (Hc & Hl & _).
  repeat split; assumption.
Qed.

(** ** C7 *)

(** C7 (as the code does it): [rotateKey()] zeroes nothing; every buffer
    allocated before the call, the discarded previous key included, keeps
    its bytes. *)
Theorem rotateKey_keeps_old_buffers (w : World H) (l : loc) (b : buf) :
  (l < w_next_loc H w)%N -> w_heap H w !! l = Some b ->
  w_heap H (snd (rotateKey H w)) !! l = Some b.
Proof.
  intros Hl Hb.
  pose proof (rotateKey_effect w) as (_ & _ & _ & _ & _ & _ & _ & _ & _ & Hheap & _).
  rewrite Hheap by exact Hl. exact Hb.
Qed.

(** ** C8 *)

(** [destroy()] changes no [ArrayBuffer]: [Buffer.isBuffer] is false for
    it. *)
Lemma destroy_keeps_arraybuffers (w : World H) (l : loc) (bytes : list Z) :
  w_heap H w !! l = Some (mkBuf ArrayBuf bytes) ->
  w_heap H (snd (KeyManager_destroy H w)) !! l = Some (mkBuf ArrayBuf bytes).
Proof.
  set (P := fun w : World H => w_heap H w !! l = Some (mkBuf ArrayBuf bytes)).
  set (pres := fun A (m : M H A) => forall w, P w -> P (snd (m w))).
  assert (Hbind : forall A B (m : M H A) (k : A -> M H B),
            pres A m -> (forall a, pres B (k a)) -> pres B (m ≫= k)).
  { intros A B m k Hm Hk w' Hw. unfold mbind, M_bind.
    specialize (Hm w' Hw). destruct (m w') as [[e|a] w'']; cbn in *; [exact Hm|apply Hk; exact Hm]. }
  assert (Hget : pres _ (get_km H)) by (intros w' Hw; exact Hw).
  assert (Hz : forall o, pres _ (zero_if_buffer H o)).
  { intros [l'|] w' Hw; [|exact Hw]. unfold zero_if_buffer. run_m.
    destruct (w_heap H w' !! l') as [b|] eqn:E; cbn; [|exact Hw].
    destruct (is_buffer b) eqn:Eb; cbn; [|exact Hw].
    unfold P in *; cbn.
    destruct (decide (l' = l)) as [->|Hne].
    - rewrite Hw in E. injection E as <-. discriminate.
    - rewrite lookup_insert_ne by exact Hne. exact Hw. }
  assert (Ht : forall k : KeyManager,
            pres _ (match rotationTimer k with
                    | Some t => clearInterval H t ≫= fun _ => upd_km H (with_rotationTimer None)
                    | None => mret () end)).
  { intros k w' Hw. destruct (rotationTimer k); [|exact Hw].
    unfold clearInterval. run_m. exact Hw. }
  assert (Hpres_destroy : pres _ (KeyManager_destroy H)).
  { unfold KeyManager_destroy.
    repeat (apply Hbind; [first [apply Hget | apply Ht | apply Hz] | intros ?]).
    apply Hz. }
  intros Hl. apply (Hpres_destroy w Hl).
Qed.

(** ** Construction *)

(** The constructor throws the master-key error exactly when [masterKey]
    is missing or its length is not 64 characters; whether they are hex
    digits is not checked. On success the current
    slot holds the version-1 key derived by HKDF from the hex-decoded
    master key, the previous version and key are [null], and
    [lastRotationTime] is the time of construction. *)
Theorem KeyManager_new_validation mk iv (w0 : World H) :
  (fst (KeyManager_new H mk iv w0) = inl (JsError msg_master_key) <->
   mk = None \/ exists s, mk = Some s /\ length s <> 64%nat) /\
  (forall w1, KeyManager_new H mk iv w0 = (inr tt, w1) ->
   exists s l bytes, mk = Some s /\ length s = 64%nat /\
     currentVersion (w_km H w1) = 1 /\ previousVersion (w_km H w1) = None /\
     previousKey (w_km H w1) = None /\ currentKey (w_km H w1) = Some l /\
     w_heap H w1 !! l = Some (mkBuf ArrayBuf bytes) /\
     hkdf_sync H (hex_decode s) (random_bytes H (w_rng H w0) 32) (key_info 1) 32 = Some bytes /\
     lastRotationTime (w_km H w1) = Some (w_clock H w0)).
Proof.
  split.
  - destruct mk as [s|].
    + unfold KeyManager_new.
      destruct (Nat.eqb_spec (length s) 0) as [E0|E0];
        destruct (Nat.eqb_spec (length s) 64) as [E|E]; cbn; try lia.
      * split; [|reflexivity]. intros _. right. exists s. split; [reflexivity|lia].
      * split; [intros Hx|intros [Hx|(s' & Hx & Hl)]; [discriminate|injection Hx as <-; lia]].
        unfold generateInitialKey, derive_key, startRotation, setInterval in Hx. run_m.
        rewrite lookup_insert_eq in Hx. cbn in Hx.
        destruct (hkdf_sync H _ _ _ _); cbn in Hx; discriminate.
      * split; [|reflexivity]. intros _. right. exists s. split; [reflexivity|lia].
    + cbn. split; [|reflexivity]. intros _. left. reflexivity.
  - intros w1 Hn.
    apply KeyManager_new_ok in Hn as (s & l & bytes & t & ? & ? & ? & ? & ? & ? & ? & ? & ? & _).
    exists s, l, bytes. repeat split; assumption.
Qed.

(** * Further properties of the vault *)


(** [dataStore.delete(id)] returns [true] exactly when [id] was stored and [false] otherwise; afterwards [id] is absent, the other records, the key manager and the buffers are unchanged, and a second delete returns [false]. *)
Lemma DataStore_delete_spec (id : string) (w : World H) :
  let r := DataStore_delete H id w in
  (fst r = inr true <-> is_Some (w_storage H w !! id)) /\
  (fst r = inr false <-> w_storage H w !! id = None) /\
  w_storage H (snd r) !! id = None /\
  (forall id', id' <> id -> w_storage H (snd r) !! id' = w_storage H w !! id') /\
  w_km H (snd r) = w_km H w /\ w_heap H (snd r) = w_heap H w /\
  fst (DataStore_delete H id (snd r)) = inr false.
Proof.
  unfold DataStore_delete. run_m.
  rewrite lookup_delete_eq.
  destruct (w_storage H w !! id) eqn:E; cbn.
  - try rewrite bool_decide_true by eauto.
    repeat split; try done; try (intros; congruence).
    intros; by rewrite lookup_delete_ne.
  - try rewrite bool_decide_false by (intros [? ?]; discriminate).
    repeat split; try done; try (intros [? ?]; discriminate); try (intros; congruence).
    intros; by rewrite lookup_delete_ne.
Qed.

(** [dataStore.getAllIds()] changes nothing and lists every stored id exactly once: no duplicates, one entry per record. *)
Lemma DataStore_getAllIds_spec (w : World H) :
  let r := DataStore_getAllIds H w in
  snd r = w /\
  exists ids, fst r = inr ids /\ NoDup ids /\ length ids = size (w_storage H w) /\
    (forall id, id ∈ ids <-> is_Some (w_storage H w !! id)).
Proof.
  unfold DataStore_getAllIds. run_m. split; [done|].
  eexists; split; [reflexivity|]. split; [apply NoDup_fst_map_to_list|].
  split; [by rewrite length_fmap, length_map_to_list|].
  intros id. rewrite list_elem_of_fmap. split.
  - intros [[i r] [-> Hin]]. apply elem_of_map_to_list in Hin. cbn. eauto.
  - intros [r Hr]. exists (id, r). split; [done|]. by apply elem_of_map_to_list.
Qed.

Lemma count_versions_foldl (rs : list (StoredRecord H)) (m : gmap Z nat) v :
  default 0%nat (foldl (fun versionCounts r =>
           <[keyVersion H r := (default 0 (versionCounts !! keyVersion H r) + 1)%nat]> versionCounts) m rs !! v)
  = (default 0%nat (m !! v) + length (filter (fun r => keyVersion H r = v) rs))%nat.
Proof.
  revert m. induction rs as [|r rs IH]; intros m; cbn [foldl]; [cbn; lia|].
  rewrite IH. rewrite filter_cons.
  destruct (decide (keyVersion H r = v)) as [<-|Hne]; cbn.
  - rewrite lookup_insert_eq. cbn. lia.
  - rewrite lookup_insert_ne by done. lia.
Qed.

Lemma count_versions_pos (rs : list (StoredRecord H)) (m : gmap Z nat) :
  (forall v n, m !! v = Some n -> (0 < n)%nat) ->
  forall v n, foldl (fun versionCounts r =>
           <[keyVersion H r := (default 0 (versionCounts !! keyVersion H r) + 1)%nat]> versionCounts) m rs !! v = Some n ->
  (0 < n)%nat.
Proof.
  revert m. induction rs as [|r rs IH]; intros m Hm; cbn; [done|].
  apply IH. intros v n. rewrite lookup_insert_Some.
  intros [[_ <-]|[_ Hv]]; [lia|eauto].
Qed.

(** [dataStore.getStats()] changes nothing; [totalRecords] is the number of records, [recordsByVersion[v]] is the number of records stored under key version [v], and only versions with at least one record appear. *)
Lemma DataStore_getStats_counts (w : World H) :
  let r := DataStore_getStats H w in
  snd r = w /\
  exists st, fst r = inr st /\
    totalRecords st = size (w_storage H w) /\
    (forall v, default 0%nat (recordsByVersion st !! v) =
       length (filter (fun rec => keyVersion H rec = v) (map_to_list (w_storage H w)).*2)) /\
    (forall v n, recordsByVersion st !! v = Some n -> (0 < n)%nat).
Proof.
  unfold DataStore_getStats. run_m. split; [done|].
  eexists; split; [reflexivity|]. cbn. split; [done|]. split.
  - intros v. unfold count_versions. rewrite count_versions_foldl. done.
  - apply count_versions_pos. done.
Qed.

Lemma oldest_foldl (rs : list (StoredRecord H)) (r0 : StoredRecord H) :
  let o := foldl (fun oldest r => if rec_timestamp H r <? rec_timestamp H oldest then r else oldest) r0 rs in
  (o = r0 \/ o ∈ rs) /\ forall r, r ∈ r0 :: rs -> rec_timestamp H o <= rec_timestamp H r.
Proof.
  revert r0. induction rs as [|r rs IH]; intros r0; cbn.
  - split; [by left|]. intros r Hr. apply list_elem_of_singleton in Hr as ->. lia.
  - destruct (IH (if rec_timestamp H r <? rec_timestamp H r0 then r else r0)) as [IH1 IH2].
    split.
    + destruct IH1 as [->|Hin].
      * destruct (_ <? _); [right; left|left; done].
      * right; by right.
    + assert (Hm : rec_timestamp H (if rec_timestamp H r <? rec_timestamp H r0 then r else r0)
                   <= Z.min (rec_timestamp H r) (rec_timestamp H r0))
        by (destruct (Z.ltb_spec (rec_timestamp H r) (rec_timestamp H r0)); lia).
      assert (Ho := IH2 _ (proj2 (elem_of_cons _ _ _) (or_introl eq_refl))).
      intros x Hx. apply elem_of_cons in Hx as [Hx|Hx]; [subst x; lia|].
      apply elem_of_cons in Hx as [Hx|Hx]; [subst x; lia|].
      apply IH2. by right.
Qed.

(** [oldestRecord] of [dataStore.getStats()] is [null] exactly when the store is empty; otherwise it is the timestamp of a stored record and no record is older. *)
Lemma DataStore_getStats_oldest (w : World H) :
  let r := DataStore_getStats H w in
  snd r = w /\
  exists st, fst r = inr st /\
    (oldestRecord st = None <-> w_storage H w = ∅) /\
    (forall t, oldestRecord st = Some t ->
       (exists id rec, w_storage H w !! id = Some rec /\ rec_timestamp H rec = t) /\
       (forall id rec, w_storage H w !! id = Some rec -> t <= rec_timestamp H rec)).
Proof.
  unfold DataStore_getStats. run_m. split; [done|].
  eexists; split; [reflexivity|]. cbn.
  assert (Hin : forall rec, rec ∈ (map_to_list (w_storage H w)).*2 <->
                  exists id, w_storage H w !! id = Some rec).
  { intros rec. rewrite list_elem_of_fmap. split.
    - intros [[i x] [-> Hx]]. apply elem_of_map_to_list in Hx. eauto.
    - intros [id Hid]. exists (id, rec). split; [done|]. by apply elem_of_map_to_list. }
  destruct ((map_to_list (w_storage H w)).*2) as [|r0 rs] eqn:E; cbn.
  - split; [split; [|done]|by intros].
    intros _. apply map_empty. intros id. destruct (w_storage H w !! id) as [rec|] eqn:Hr; [|done].
    exfalso. assert (rec ∈ []) as Hc by (apply Hin; eauto). by apply elem_of_nil in Hc.
  - split; [split; [done|]|].
    { intros He. rewrite He in E. rewrite map_to_list_empty in E. discriminate. }
    intros t [= <-]. destruct (oldest_foldl rs r0) as [H1 H2]. split.
    + set (o := foldl _ r0 rs) in *.
      assert (Ho : o ∈ r0 :: rs) by (destruct H1 as [->|H1]; [left|right; done]).
      apply Hin in Ho as [id Hid]. eauto.
    + intros id rec Hr. apply H2. apply Hin. eauto.
Qed.


(** When base64 decoding inverts encoding, [deserialize(serialize(e))] gives back [e]. *)
Lemma serialize_roundtrip (HL : HostLaws H) (e : Encrypted) :
  deserialize H (serialize H e) = e.
Proof.
  destruct e as [c iv t]. unfold deserialize, serialize. cbn.
  by rewrite !(law_base64 H HL).
Qed.

(** [encrypt] draws one random IV and changes nothing else; it either throws [Encryption operation failed] or returns the 12 random IV bytes with the AES-GCM ciphertext and tag of the JSON text under the key's bytes. *)
Lemma encrypt_outcome (d : val H) (key : option loc) (w : World H) :
  let r := encrypt H d key w in
  snd r = set_rng H (S (w_rng H w)) w /\
  (fst r = inl (JsError "Encryption operation failed") \/
   exists e s l b, fst r = inr e /\ enc_iv e = random_bytes H (w_rng H w) 12 /\
     json_stringify H d = Some s /\ key = Some l /\ w_heap H w !! l = Some b /\
     gcm_encrypt H (buf_bytes b) (enc_iv e) (utf8_encode H s) = Some (enc_ciphertext e, enc_tag e)).
Proof.
  unfold encrypt, key_bytes. run_m.
  destruct (json_stringify H d) as [s|] eqn:Hs; cbn; [|split; [reflexivity|by left]].
  destruct key as [l|]; cbn; [|split; [reflexivity|by left]].
  destruct (w_heap H w !! l) as [b|] eqn:Hb; cbn; [|split; [reflexivity|by left]].
  destruct (gcm_encrypt H _ _ _) as [[c t]|] eqn:Hg; cbn; [|split; [reflexivity|by left]].
  split; [reflexivity|right]. eexists _, s, l, b. cbn. eauto 10.
Qed.

(** [decrypt] changes no state and throws only the authentication error or [Decryption operation failed]; the authentication error exactly when GCM reports an authentication failure, and a value exactly when GCM and [JSON.parse] both succeed. *)
Lemma decrypt_outcome (c iv tag : list Z) (key : option loc) (w : World H) :
  let r := decrypt H c iv tag key w in
  snd r = w /\
  (forall e, fst r = inl e -> e = JsError msg_auth_failed \/ e = JsError msg_decrypt_failed) /\
  (fst r = inl (JsError msg_auth_failed) <->
   exists l b m, key = Some l /\ w_heap H w !! l = Some b /\
     gcm_decrypt H (buf_bytes b) iv c tag = inl m /\ str_includes m auth_failure_node_msg = true) /\
  (forall v, fst r = inr v <->
   exists l b p, key = Some l /\ w_heap H w !! l = Some b /\
     gcm_decrypt H (buf_bytes b) iv c tag = inr p /\ json_parse H (utf8_decode H p) = Some v).
Proof.
  assert (Hne : msg_auth_failed <> msg_decrypt_failed) by discriminate.
  unfold decrypt, key_bytes. run_m.
  destruct key as [l|]; cbn.
  2: { repeat split; try (intros; congruence).
       - intros e [= <-]. by right.
       - intros (? & ? & ? & ? & _); discriminate.
       - intros (? & ? & ? & ? & _); discriminate. }
  destruct (w_heap H w !! l) as [b|] eqn:Hb; cbn.
  2: { repeat split; try (intros; congruence).
       - intros e [= <-]. by right.
       - intros (? & ? & ? & [= <-] & ? & _); congruence.
       - intros (? & ? & ? & [= <-] & ? & _); congruence. }
  destruct (gcm_decrypt H _ _ _ _) as [m|p] eqn:Hg; cbn.
  - destruct (str_includes m auth_failure_node_msg) eqn:Hi; cbn.
    + repeat split; try (intros; congruence).
      * intros e [= <-]. by left.
      * intros _. eauto 10.
      * intros (? & ? & ? & [= <-] & Hb' & Hg' & _). congruence.
    + repeat split; try (intros; congruence).
      * intros e [= <-]. by right.
      * intros (? & ? & ? & [= <-] & Hb' & Hg' & Hi'). congruence.
      * intros (? & ? & ? & [= <-] & Hb' & Hg' & _). congruence.
  - destruct (json_parse H (utf8_decode H p)) as [v|] eqn:Hp; cbn.
    + repeat split; try (intros; congruence).
      * intros (? & ? & ? & [= <-] & Hb' & Hg' & _). congruence.
      * intros [= <-]. eauto 10.
      * intros (? & ? & ? & [= <-] & Hb' & Hg' & Hp'). congruence.
    + assert (Hu : str_includes "Unexpected token in JSON" auth_failure_node_msg = false) by reflexivity.
      try rewrite Hu; cbn.
      repeat split; try (intros; congruence).
      * intros e [= <-]. by right.
      * intros (? & ? & ? & [= <-] & Hb' & Hg' & _). congruence.
      * intros (? & ? & ? & [= <-] & Hb' & Hg' & Hp'). congruence.
Qed.

(** [vaultService.store(data)] either throws [Failed to store data] with the data store unchanged, or returns the current key version and adds exactly one record, under the returned id, with that version and empty metadata. *)
Lemma store_outcome (d : val H) (w : World H) :
  let k := w_km H w in
  let r := store H d w in
  (fst r = inl (JsError "Failed to store data") /\ w_storage H (snd r) = w_storage H w) \/
  (exists res rec, fst r = inr res /\ sr_keyVersion res = currentVersion k /\
     w_storage H (snd r) = <[sr_id res := rec]> (w_storage H w) /\
     rec_id H rec = sr_id res /\ keyVersion H rec = currentVersion k /\ rec_metadata H rec = []).
Proof.
  unfold store, getCurrentKey, encrypt, key_bytes, DataStore_store. run_m.
  repeat (case_match; simplify_eq/=); try (left; split; reflexivity).
  right. eexists _, _. repeat split; reflexivity.
Qed.


Lemma decrypt_outcome_errs (c iv tag : list Z) (key : option loc) (w : World H) e w' :
  decrypt H c iv tag key w = (inl e, w') -> e = JsError msg_auth_failed \/ e = JsError msg_decrypt_failed.
Proof.
  unfold decrypt, key_bytes. run_m. intros Hd.
  repeat (case_match; simplify_eq/=); auto.
Qed.

(** In a reachable state an error of [retrieve(id)] is [Record not found] for a missing id, the expired-version message for an unsupported version, or an authentication or decryption failure for a supported one; [Decryption key not available] never occurs. *)
Lemma retrieve_errors (id : string) (w : World H) (e : exn) :
  reachable H w -> fst (retrieve H id w) = inl e ->
  let k := w_km H w in
  (w_storage H w !! id = None /\ e = JsError msg_not_found) \/
  (exists rec, w_storage H w !! id = Some rec /\
     fst (isVersionSupported H (keyVersion H rec) w) = inr false /\
     e = JsError (msg_version_expired (keyVersion H rec) (currentVersion k) (previousVersion k))) \/
  (exists rec, w_storage H w !! id = Some rec /\
     fst (isVersionSupported H (keyVersion H rec) w) = inr true /\
     (e = JsError msg_auth_failed \/ e = JsError msg_decrypt_failed)).
Proof.
  intros Hr. pose proof (reachable_inv w Hr) as (Hc & Ht & _ & _).
  unfold retrieve, DataStore_retrieve, getCurrentKey, getKeyInfo, getKeyByVersion, isVersionSupported.
  repeat (unfold mbind, M_bind, mret, M_ret, throw, catch, gets, modify, get_km in *).
  cbn -[js_num_str key_info decrypt]. intros Hres.
  repeat (case_match; simplify_eq/=).
  all: try match goal with Hd : decrypt H _ _ _ _ _ = (inl _, _) |- _ => apply decrypt_outcome_errs in Hd end.
  all: try (left; done).
  all: try (right; left; eexists; split; [reflexivity|]; split; [congruence|]; reflexivity).
  all: try (right; right; eexists; split; [reflexivity|]; split; [congruence|]; done).
  all: exfalso; try congruence.
  all: match goal with Hq : (_ =? _) = false |- _ => rewrite Hq in * end; cbn in *.
  all: destruct (previousKey (w_km H _)); destruct (bool_decide (Some _ = _)); cbn in *; congruence.
Qed.


Lemma str_prefix_app (p x : string) : str_prefix p (p +:+ x) = true.
Proof.
  induction p as [|a p IH]; [done|].
  change (String a p +:+ x) with (String a (p +:+ x)). cbn [str_prefix].
  by rewrite Ascii.eqb_refl, IH.
Qed.

Lemma str_includes_prefix (s p : string) : str_prefix p s = true -> str_includes s p = true.
Proof. intros Hp. destruct s; cbn [str_includes]; by rewrite Hp. Qed.

Lemma str_includes_app_r (a b p : string) :
  str_includes b p = true -> str_includes (a +:+ b) p = true.
Proof.
  intros Hb. induction a as [|c a IH]; [done|].
  change (String c a +:+ b) with (String c (a +:+ b)). cbn [str_includes].
  rewrite IH. apply orb_true_r.
Qed.

Lemma msg_version_expired_class (v cur : Z) (prev : option Z) :
  String.eqb (msg_version_expired v cur prev) "Record not found" = false /\
  str_includes (msg_version_expired v cur prev) "no longer supported" = true.
Proof.
  split; [reflexivity|]. unfold msg_version_expired.
  apply str_includes_app_r, str_includes_app_r.
  match goal with |- str_includes (_ +:+ ?r) _ = true =>
    change (" is no longer supported. " +:+ r) with (" is " +:+ ("no longer supported" +:+ (". " +:+ r))) end.
  apply str_includes_app_r, str_includes_prefix, str_prefix_app.
Qed.

Lemma retrieve_absent (s : string) (w : World H) :
  w_storage H w !! s = None -> retrieve H s w = (inl (JsError msg_not_found), w).
Proof. intros Hs. unfold retrieve, DataStore_retrieve. run_m. by rewrite Hs. Qed.

Lemma retrieve_unsupported (s : string) (w : World H) (rec : StoredRecord H) (t : Z) :
  w_storage H w !! s = Some rec ->
  fst (isVersionSupported H (keyVersion H rec) w) = inr false ->
  lastRotationTime (w_km H w) = Some t ->
  retrieve H s w = (inl (JsError (msg_version_expired (keyVersion H rec)
                       (currentVersion (w_km H w)) (previousVersion (w_km H w)))), w).
Proof.
  intros Hs Hv Ht.
  assert (Hiv : isVersionSupported H (keyVersion H rec) w = (inr false, w)).
  { rewrite <- Hv. unfold isVersionSupported. run_m. reflexivity. }
  unfold retrieve, DataStore_retrieve, getCurrentKey, getKeyInfo. run_m.
  rewrite Hs. cbn. rewrite Hiv. cbn. by rewrite Ht.
Qed.

(** [GET /api/vault/retrieve] changes no state; it answers 400 without an id, 404 for a missing record, 410 for an expired key version, and 200 or a 500 carrying the decryption error for a supported version. *)
Lemma get_retrieve_status (id : option string) (w : World H) :
  reachable H w ->
  let r := get_retrieve H id w in
  snd r = w /\
  match id with
  | None | Some EmptyString => fst r = inr (400, BodyError H "Missing required query parameter: id")
  | Some s =>
      match w_storage H w !! s with
      | None => fst r = inr (404, BodyErrorId H "Record not found" s)
      | Some rec =>
          (fst (isVersionSupported H (keyVersion H rec) w) = inr false ->
             exists m, fst r = inr (410, BodyErrorMessage H "Key version expired" m)) /\
          (fst (isVersionSupported H (keyVersion H rec) w) = inr true ->
             (exists res, fst r = inr (200, BodyRetrieve H res)) \/
             fst r = inr (500, BodyErrorMessage H "Failed to retrieve data" msg_auth_failed) \/
             fst r = inr (500, BodyErrorMessage H "Failed to retrieve data" msg_decrypt_failed))
      end
  end.
Proof.
  intros Hr. pose proof (reachable_inv w Hr) as (Hc & Ht & _ & _).
  destruct id as [[|c s]|]; cbn zeta; try (split; reflexivity).
  set (s' := String c s).
  assert (Hcatch : forall (e : exn) w',
    retrieve H s' w = (inl e, w') ->
    get_retrieve H (Some s') w =
      (inr (if String.eqb (exn_message e) "Record not found" then (404, BodyErrorId H "Record not found" s')
       else if str_includes (exn_message e) "no longer supported"
       then (410, BodyErrorMessage H "Key version expired" (exn_message e))
       else (500, BodyErrorMessage H "Failed to retrieve data" (exn_message e))), w')).
  { intros e w' E. unfold get_retrieve. cbn. unfold catch, mbind, M_bind. cbn.
    fold s'. rewrite E. destruct (String.eqb _ _); [reflexivity|].
    destruct (str_includes _ _); reflexivity. }
  assert (Hok : forall res w',
    retrieve H s' w = (inr res, w') -> get_retrieve H (Some s') w = (inr (200, BodyRetrieve H res), w')).
  { intros res w' E. unfold get_retrieve. cbn. unfold catch, mbind, M_bind. cbn.
    fold s'. rewrite E. reflexivity. }
  pose proof (retrieve_frame s' w) as Hfr.
  destruct (w_storage H w !! s') as [rec|] eqn:Es.
  - destruct (lastRotationTime (w_km H w)) as [t|] eqn:Et; [|done].
    destruct (retrieve H s' w) as [[e|res] w'] eqn:E; cbn in Hfr; subst w'.
    + rewrite (Hcatch _ _ eq_refl). cbn.
      pose proof (retrieve_errors s' w e Hr) as Herr. rewrite E in Herr.
      specialize (Herr eq_refl). cbn zeta in Herr.
      destruct (String.eqb (exn_message e) "Record not found") eqn:Enf.
      { exfalso. destruct Herr as [[Hn _]|[(rec' & _ & _ & ->)|(rec' & _ & _ & [-> | ->])]];
          [congruence| |discriminate|discriminate].
        cbn in Enf. by rewrite (proj1 (msg_version_expired_class _ _ _)) in Enf. }
      split; [reflexivity|]. split.
      * intros Hv. rewrite (retrieve_unsupported s' w rec t Es Hv Et) in E.
        injection E as <-.
        cbn. rewrite (proj2 (msg_version_expired_class _ _ _)). eauto.
      * intros Hv. right.
        destruct Herr as [[Hn _]|[(rec' & Hs' & Hv' & _)|(rec' & Hs' & _ & [-> | ->])]].
        -- congruence.
        -- rewrite Es in Hs'. injection Hs' as <-. congruence.
        -- left. reflexivity.
        -- right. reflexivity.
    + rewrite (Hok _ _ eq_refl). split; [reflexivity|]. split.
      * intros Hv. rewrite (retrieve_unsupported s' w rec t Es Hv Et) in E. discriminate.
      * intros _. left. eauto.
  - rewrite (Hcatch _ _ (retrieve_absent s' w Es)). split; reflexivity.
Qed.

(** [POST /api/vault/rotate] answers 200 with the key info of the rotated key manager when [rotateKey] succeeds and 500 [Failed to rotate key] when it throws; the state is the one [rotateKey] leaves in both cases. *)
Lemma post_rotate_spec (w : World H) :
  let k := w_km H w in
  let w' := snd (rotateKey H w) in
  match fst (rotateKey H w) with
  | inr _ => post_rotate H w =
      (inr (200, BodyRotate H "Key rotation completed"
               (currentVersion k + 1, Some (currentVersion k), w_clock H w,
                w_clock H w + rotationIntervalMs k)), w')
  | inl _ => post_rotate H w = (inr (500, BodyError H "Failed to rotate key"), w')
  end.
Proof.
  pose proof (rotateKey_effect w) as (_ & Hi & Hcv & Hpv & _ & _ & _ & _ & Hclk & _ & Hr).
  cbn zeta in *.
  unfold post_rotate, Vault_forceRotation, forceRotation, VaultService_getStats, getKeyInfo,
    DataStore_getStats.
  unfold catch, mbind, M_bind, get_km, gets, mret, M_ret. cbn -[rotateKey].
  destruct (rotateKey H w) as [[e|[]] w'] eqn:E; cbn in *; [reflexivity|].
  destruct Hr as (_ & Ht & _). rewrite Ht. cbn. rewrite Hcv, Hpv, Hi. reflexivity.
Qed.

(** In a reachable state [GET /api/vault/stats] changes nothing and answers 200 with the key info (current and previous versions, last rotation, next rotation one interval later) and the data store statistics. *)
Lemma get_stats_reachable (w : World H) :
  reachable H w ->
  let k := w_km H w in
  exists t st, lastRotationTime k = Some t /\ fst (DataStore_getStats H w) = inr st /\
    get_stats H w =
      (inr (200, BodyStats H (currentVersion k, previousVersion k, t, t + rotationIntervalMs k) st), w).
Proof.
  intros Hr. pose proof (reachable_inv w Hr) as (_ & Ht & _ & _). cbn zeta.
  destruct (lastRotationTime (w_km H w)) as [t|] eqn:Et; [|done].
  unfold get_stats, VaultService_getStats, getKeyInfo, DataStore_getStats. run_m.
  rewrite Et. cbn. eexists _, _. split; [reflexivity|]. split; reflexivity.
Qed.

Lemma fill0_idem (b : buf) : fill0 (fill0 b) = fill0 b.
Proof. destruct b as [k bs]. unfold fill0. cbn. f_equal. rewrite map_map. reflexivity. Qed.


Lemma zs_spec (o : option loc) (w : World H) :
  zero_if_buffer H o w =
  match o with
  | None => (inr tt, w)
  | Some l =>
      match w_heap H w !! l with
      | None => (inl (JsTypeError "invalid buffer"), w)
      | Some b => (inr tt, if is_buffer b then set_heap H (<[l := fill0 b]> (w_heap H w)) w else w)
      end
  end.
Proof.
  unfold zero_if_buffer, read_buf, write_buf. destruct o as [l|]; [|reflexivity].
  unfold mbind, M_bind, mret, M_ret, modify. cbn.
  destruct (w_heap H w !! l) as [b|]; [|reflexivity]. cbn.
  destruct (is_buffer b); reflexivity.
Qed.

Lemma zs_frame (o : option loc) (w : World H) :
  let w' := snd (zero_if_buffer H o w) in
  w_km H w' = w_km H w /\
  (forall l, is_Some (w_heap H w' !! l) <-> is_Some (w_heap H w !! l)) /\
  (forall l, clean (w_heap H w) l -> clean (w_heap H w') l).
Proof.
  cbn zeta. rewrite zs_spec. destruct o as [l|]; [|done].
  destruct (w_heap H w !! l) as [b|] eqn:Hb; [|done]. cbn.
  destruct (is_buffer b) eqn:Hib; [|done]. cbn. split; [done|]. split.
  - intros l'. destruct (decide (l = l')) as [<-|Hne].
    + rewrite lookup_insert_eq, Hb. split; eauto.
    + by rewrite lookup_insert_ne.
  - intros l' Hc b'. destruct (decide (l = l')) as [<-|Hne].
    + rewrite lookup_insert_eq. intros [= <-] _. apply fill0_idem.
    + rewrite lookup_insert_ne by done. apply Hc.
Qed.

Lemma zs_ok (o : option loc) (w : World H) (l : loc) :
  fst (zero_if_buffer H o w) = inr tt -> o = Some l ->
  is_Some (w_heap H w !! l) /\ clean (w_heap H (snd (zero_if_buffer H o w))) l.
Proof.
  rewrite zs_spec. intros Hr ->.
  destruct (w_heap H w !! l) as [b|] eqn:Hb; [|discriminate]. split; [eauto|].
  cbn. destruct (is_buffer b) eqn:Hib; cbn.
  - intros b'. rewrite lookup_insert_eq. intros [= <-] _. apply fill0_idem.
  - intros b'. rewrite Hb. intros [= <-]. congruence.
Qed.

Lemma zs_fail (o : option loc) (w : World H) e w' :
  zero_if_buffer H o w = (inl e, w') -> w' = w /\ exists l, o = Some l /\ w_heap H w !! l = None.
Proof.
  rewrite zs_spec. destruct o as [l|]; [|discriminate].
  destruct (w_heap H w !! l) as [b|] eqn:Hb; [discriminate|]. intros [= <- <-]. eauto.
Qed.

Lemma zs_noop (o : option loc) (w : World H) :
  (forall l, o = Some l -> is_Some (w_heap H w !! l) /\ clean (w_heap H w) l) ->
  zero_if_buffer H o w = (inr tt, w).
Proof.
  intros Ho. rewrite zs_spec. destruct o as [l|]; [|done].
  destruct (Ho l eq_refl) as [[b Hb] Hc]. rewrite Hb.
  destruct (is_buffer b) eqn:Hib; [|done].
  rewrite (Hc b Hb Hib), insert_id by done. by destruct w.
Qed.

Lemma zs_chain_idem (o1 o2 o3 : option loc) (w : World H) :
  let c := fun w =>
    match zero_if_buffer H o1 w with
    | (inl e, w2) => (inl e, w2)
    | (inr _, w2) =>
        match zero_if_buffer H o2 w2 with
        | (inl e, w3) => (inl e, w3)
        | (inr _, w3) => zero_if_buffer H o3 w3
        end
    end in
  c (snd (c w)) = c w.
Proof.
  cbn zeta.
  destruct (zero_if_buffer H o1 w) as [[e1|[]] w2] eqn:E1.
  { destruct (zs_fail _ _ _ _ E1) as [-> _]. rewrite ?E1. cbn -[zero_if_buffer].
    rewrite ?E1. reflexivity. }
  assert (Hok1 := zs_ok o1 w). rewrite E1 in Hok1. cbn in Hok1.
  pose proof (zs_frame o1 w) as (_ & Hd1 & Hc1). rewrite E1 in Hd1, Hc1. cbn in Hd1, Hc1.
  rewrite ?E1. cbn -[zero_if_buffer].
  destruct (zero_if_buffer H o2 w2) as [[e2|[]] w3] eqn:E2.
  { destruct (zs_fail _ _ _ _ E2) as [-> _]. rewrite ?E2. cbn -[zero_if_buffer].
    rewrite (zs_noop o1 w2).
    - cbn -[zero_if_buffer]. by rewrite ?E2.
    - intros l ->. destruct (Hok1 l eq_refl eq_refl) as [Hs Hc]. split; [by apply Hd1|done]. }
  assert (Hok2 := zs_ok o2 w2). rewrite E2 in Hok2. cbn in Hok2.
  pose proof (zs_frame o2 w2) as (_ & Hd2 & Hc2). rewrite E2 in Hd2, Hc2. cbn in Hd2, Hc2.
  rewrite ?E2. cbn -[zero_if_buffer].
  destruct (zero_if_buffer H o3 w3) as [[e3|[]] w4] eqn:E3.
  { destruct (zs_fail _ _ _ _ E3) as [-> _]. rewrite ?E3. cbn -[zero_if_buffer].
    rewrite (zs_noop o1 w3).
    - cbn -[zero_if_buffer]. rewrite (zs_noop o2 w3).
      + cbn -[zero_if_buffer]. by rewrite ?E3.
      + intros l ->. destruct (Hok2 l eq_refl eq_refl) as [Hs Hc]. split; [by apply Hd2|done].
    - intros l ->. destruct (Hok1 l eq_refl eq_refl) as [Hs Hc].
      split; [by apply Hd2, Hd1|by apply Hc2]. }
  assert (Hok3 := zs_ok o3 w3). rewrite E3 in Hok3. cbn in Hok3.
  pose proof (zs_frame o3 w3) as (_ & Hd3 & Hc3). rewrite E3 in Hd3, Hc3. cbn in Hd3, Hc3.
  rewrite ?E3. cbn -[zero_if_buffer].
  rewrite (zs_noop o1 w4).
  - cbn -[zero_if_buffer]. rewrite (zs_noop o2 w4).
    + cbn -[zero_if_buffer]. rewrite (zs_noop o3 w4); [done|].
      intros l ->. destruct (Hok3 l eq_refl eq_refl) as [Hs Hc]. split; [by apply Hd3|done].
    + intros l ->. destruct (Hok2 l eq_refl eq_refl) as [Hs Hc].
      split; [by apply Hd3, Hd2|by apply Hc3].
  - intros l ->. destruct (Hok1 l eq_refl eq_refl) as [Hs Hc].
    split; [by apply Hd3, Hd2, Hd1|by apply Hc3, Hc2].
Qed.

Lemma KeyManager_destroy_chain (w : World H) :
  let w1 := snd ((match rotationTimer (w_km H w) with
                  | Some t => clearInterval H t;; upd_km H (with_rotationTimer None)
                  | None => mret ()
                  end) w) in
  let k := w_km H w1 in
  KeyManager_destroy H w =
    match zero_if_buffer H (currentKey k) w1 with
    | (inl e, w2) => (inl e, w2)
    | (inr _, w2) =>
        match zero_if_buffer H (previousKey k) w2 with
        | (inl e, w3) => (inl e, w3)
        | (inr _, w3) => zero_if_buffer H (Some (masterKeyBuffer k)) w3
        end
    end.
Proof.
  cbn zeta. unfold KeyManager_destroy.
  unfold mbind at 1, M_bind at 1, get_km at 1, gets at 1. cbn -[zero_if_buffer].
  set (T := match rotationTimer (w_km H w) with
            | Some t => clearInterval H t;; upd_km H (with_rotationTimer None)
            | None => mret () end).
  assert (HT : fst (T w) = inr tt).
  { subst T. destruct (rotationTimer (w_km H w)); reflexivity. }
  unfold mbind, M_bind. destruct (T w) as [r w1] eqn:ET. cbn in HT. subst r.
  cbn -[zero_if_buffer].
  destruct (zero_if_buffer H (currentKey (w_km H w1)) w1) as [[e|[]] w2] eqn:E2; [reflexivity|].
  pose proof (zs_frame (currentKey (w_km H w1)) w1) as [Hk2 _]. rewrite E2 in Hk2. cbn in Hk2.
  cbn -[zero_if_buffer]. rewrite Hk2.
  destruct (zero_if_buffer H (previousKey (w_km H w1)) w2) as [[e|[]] w3] eqn:E3; [reflexivity|].
  pose proof (zs_frame (previousKey (w_km H w1)) w2) as [Hk3 _]. rewrite E3 in Hk3. cbn in Hk3.
  cbn -[zero_if_buffer]. rewrite Hk3, Hk2.
  destruct (zero_if_buffer H _ w3) as [[e|[]] w4]; reflexivity.
Qed.

Lemma zs_chain_km (o1 o2 o3 : option loc) (w : World H) :
  w_km H (snd (match zero_if_buffer H o1 w with
    | (inl e, w2) => (inl e, w2)
    | (inr _, w2) =>
        match zero_if_buffer H o2 w2 with
        | (inl e, w3) => (inl e, w3)
        | (inr _, w3) => zero_if_buffer H o3 w3
        end
    end)) = w_km H w.
Proof.
  pose proof (zs_frame o1 w) as [K1 _].
  destruct (zero_if_buffer H o1 w) as [[e1|[]] w2]; [done|]. cbn in K1.
  pose proof (zs_frame o2 w2) as [K2 _].
  destruct (zero_if_buffer H o2 w2) as [[e2|[]] w3]; cbn in K2; [cbn; congruence|].
  pose proof (zs_frame o3 w3) as [K3 _]. cbn in K3 |- *. congruence.
Qed.

(** Calling [keyManager.destroy()] a second time has the same result and the same final state as the first call. *)
Lemma KeyManager_destroy_idempotent (w : World H) :
  KeyManager_destroy H (snd (KeyManager_destroy H w)) = KeyManager_destroy H w.
Proof.
  pose proof (KeyManager_destroy_chain w) as Hc. cbn zeta in Hc.
  set (w1 := snd (match rotationTimer (w_km H w) with
                  | Some t => clearInterval H t;; upd_km H (with_rotationTimer None)
                  | None => mret ()
                  end w)) in Hc.
  assert (Ht1 : rotationTimer (w_km H w1) = None).
  { unfold w1. clear. destruct (rotationTimer (w_km H w)) eqn:E; [unfold clearInterval; run_m; reflexivity|exact E]. }
  set (k := w_km H w1) in Hc.
  rewrite (KeyManager_destroy_chain (snd (KeyManager_destroy H w))). cbn zeta.
  rewrite Hc.
  pose proof (zs_chain_km (currentKey k) (previousKey k) (Some (masterKeyBuffer k)) w1) as Hk.
  set (wf := snd (match zero_if_buffer H (currentKey k) w1 with
                  | (inl e, w2) => (inl e, w2)
                  | (inr _, w2) =>
                      match zero_if_buffer H (previousKey k) w2 with
                      | (inl e, w3) => (inl e, w3)
                      | (inr _, w3) => zero_if_buffer H (Some (masterKeyBuffer k)) w3
                      end
                  end)) in *.
  rewrite Hk, Ht1. unfold mret, M_ret. cbn [snd]. rewrite Hk.
  pose proof (zs_chain_idem (currentKey k) (previousKey k) (Some (masterKeyBuffer k)) w1) as Hi.
  cbn zeta in Hi. exact Hi.
Qed.

Lemma zs_rest (o : option loc) (w : World H) :
  let w' := snd (zero_if_buffer H o w) in
  w_km H w' = w_km H w /\ w_timers H w' = w_timers H w /\ w_storage H w' = w_storage H w.
Proof.
  cbn zeta. rewrite zs_spec. destruct o as [l|]; [|done].
  destruct (w_heap H w !! l); [|done]. cbn. destruct (is_buffer _); done.
Qed.

Lemma zs_chain_rest (o1 o2 o3 : option loc) (w : World H) :
  let w' := snd (match zero_if_buffer H o1 w with
    | (inl e, w2) => (inl e, w2)
    | (inr _, w2) =>
        match zero_if_buffer H o2 w2 with
        | (inl e, w3) => (inl e, w3)
        | (inr _, w3) => zero_if_buffer H o3 w3
        end
    end) in
  w_km H w' = w_km H w /\ w_timers H w' = w_timers H w /\ w_storage H w' = w_storage H w.
Proof.
  cbn zeta.
  pose proof (zs_rest o1 w) as (K1 & T1 & S1).
  destruct (zero_if_buffer H o1 w) as [[e1|[]] w2]; [done|]. cbn in K1, T1, S1.
  pose proof (zs_rest o2 w2) as (K2 & T2 & S2).
  destruct (zero_if_buffer H o2 w2) as [[e2|[]] w3]; cbn in K2, T2, S2; [cbn; repeat split; congruence|].
  pose proof (zs_rest o3 w3) as (K3 & T3 & S3). cbn in K3, T3, S3 |- *. repeat split; congruence.
Qed.

Lemma KeyManager_destroy_frame (w : World H) :
  let w' := snd (KeyManager_destroy H w) in
  w_timers H w' = match rotationTimer (w_km H w) with
                  | Some t => w_timers H w ∖ {[t]}
                  | None => w_timers H w
                  end /\
  w_km H w' = with_rotationTimer None (w_km H w) /\
  w_storage H w' = w_storage H w.
Proof.
  cbn zeta. rewrite KeyManager_destroy_chain. cbn zeta.
  set (w1 := snd (match rotationTimer (w_km H w) with
                  | Some t => clearInterval H t;; upd_km H (with_rotationTimer None)
                  | None => mret ()
                  end w)).
  assert (Hw1 : w_timers H w1 = match rotationTimer (w_km H w) with
                  | Some t => w_timers H w ∖ {[t]}
                  | None => w_timers H w
                  end /\
                w_km H w1 = with_rotationTimer None (w_km H w) /\
                w_storage H w1 = w_storage H w).
  { unfold w1. destruct (rotationTimer (w_km H w)) eqn:E.
    - unfold clearInterval. run_m. repeat split; reflexivity.
    - cbn. repeat split; try reflexivity.
      destruct (w_km H w); cbn in E |- *. rewrite E. reflexivity. }
  destruct Hw1 as (T1 & K1 & S1).
  pose proof (zs_chain_rest (currentKey (w_km H w1)) (previousKey (w_km H w1))
                (Some (masterKeyBuffer (w_km H w1))) w1) as (K & T & S).
  cbn zeta in K, T, S. rewrite K, T, S. repeat split; assumption.
Qed.

Lemma reachable_timer (w : World H) :
  reachable H w -> exists t, rotationTimer (w_km H w) = Some t /\ t ∈ w_timers H w.
Proof.
  induction 1 as [mk iv w0 w Hn|mk iv w0 w Hn|w _ IH|w d _ IH|w id _ IH].
  - apply KeyManager_new_ok in Hn as (s & l & bytes & t & _ & _ & _ & _ & _ & _ & _ & _ & _ & Ht & Hin & _).
    eauto.
  - apply VaultService_new_ok in Hn as (w' & Hn & ->).
    apply KeyManager_new_ok in Hn as (s & l & bytes & t & _ & _ & _ & _ & _ & _ & _ & _ & _ & Ht & Hin & _).
    eauto.
  - pose proof (rotateKey_effect w) as (_ & _ & _ & _ & _ & Ht & _ & Hti & _).
    cbn zeta in Ht, Hti. rewrite Ht, Hti. exact IH.
  - pose proof (store_frame d w) as (Hk & _ & _ & Hti & _). cbn zeta in Hk, Hti.
    rewrite Hk, Hti. exact IH.
  - by rewrite retrieve_frame.
Qed.

(** In a reachable state the key manager holds a live rotation interval, and [vaultService.destroy()] clears exactly that interval and resets [rotationTimer], even when zeroing a key throws. *)
Lemma Vault_destroy_clears_timer (w : World H) :
  reachable H w ->
  exists t, rotationTimer (w_km H w) = Some t /\ t ∈ w_timers H w /\
    w_timers H (snd (Vault_destroy H w)) = w_timers H w ∖ {[t]} /\
    rotationTimer (w_km H (snd (Vault_destroy H w))) = None.
Proof.
  intros Hr. destruct (reachable_timer w Hr) as (t & Ht & Hin).
  exists t. split; [exact Ht|]. split; [exact Hin|].
  pose proof (KeyManager_destroy_frame w) as (T & K & _). cbn zeta in T, K.
  rewrite Ht in T.
  unfold Vault_destroy, DataStore_clear.
  unfold mbind, M_bind, modify.
  destruct (KeyManager_destroy H w) as [[e|[]] w'] eqn:E; cbn in T, K |- *;
    rewrite T, K; split; reflexivity.
Qed.

(** [vaultService.destroy()] fails exactly when [keyManager.destroy()] does; it empties the data store on success and leaves the records on failure. *)
Lemma Vault_destroy_storage (w : World H) :
  fst (Vault_destroy H w) = fst (KeyManager_destroy H w) /\
  w_storage H (snd (Vault_destroy H w)) =
    match fst (KeyManager_destroy H w) with
    | inr _ => ∅
    | inl _ => w_storage H w
    end.
Proof.
  pose proof (KeyManager_destroy_frame w) as (_ & _ & S). cbn zeta in S.
  unfold Vault_destroy, DataStore_clear, mbind, M_bind, modify.
  destruct (KeyManager_destroy H w) as [[e|[]] w'] eqn:E; cbn in S |- *;
    split; try reflexivity; exact S.
Qed.

(** After a successful [vaultService.destroy()] every [retrieve(id)] throws [Record not found]. *)
Lemma retrieve_after_destroy (w : World H) :
  fst (Vault_destroy H w) = inr tt ->
  forall id, retrieve H id (snd (Vault_destroy H w)) =
             (inl (JsError msg_not_found), snd (Vault_destroy H w)).
Proof.
  intros Hd id.
  pose proof (KeyManager_destroy_frame w) as (_ & _ & S). cbn zeta in S.
  assert (Hs : w_storage H (snd (Vault_destroy H w)) = ∅).
  { unfold Vault_destroy, DataStore_clear, mbind, M_bind, modify in *.
    destruct (KeyManager_destroy H w) as [[e|[]] w'] eqn:E; cbn in Hd |- *;
      [discriminate|reflexivity]. }
  unfold retrieve, DataStore_retrieve, catch, mbind, M_bind, gets, throw.
  rewrite Hs, lookup_empty. reflexivity.
Qed.

Lemma zs_at (o : option loc) (w : World H) (m : loc) (b : buf) :
  w_heap H w !! m = Some b ->
  w_heap H (snd (zero_if_buffer H o w)) !! m = Some b \/
  w_heap H (snd (zero_if_buffer H o w)) !! m = Some (fill0 b).
Proof.
  intros Hm. rewrite zs_spec. destruct o as [l|]; [|left; exact Hm].
  destruct (w_heap H w !! l) as [b'|] eqn:El; rewrite ?El; cbn; [|left; exact Hm].
  destruct (is_buffer b'); cbn; [|left; exact Hm].
  destruct (decide (l = m)) as [->|Hne].
  - right. rewrite lookup_insert_eq. congruence.
  - left. rewrite lookup_insert_ne by exact Hne. exact Hm.
Qed.

(** A successful [keyManager.destroy()] turns a Node master key buffer into zeros of the same length and stops rotation; a later successful [rotateKey] derives its new key by HKDF from those zero bytes. *)
Lemma destroy_zeroes_master (w : World H) (bytes : list Z) :
  w_heap H w !! masterKeyBuffer (w_km H w) = Some (mkBuf NodeBuffer bytes) ->
  fst (KeyManager_destroy H w) = inr tt ->
  let w1 := snd (KeyManager_destroy H w) in
  masterKeyBuffer (w_km H w1) = masterKeyBuffer (w_km H w) /\
  w_heap H w1 !! masterKeyBuffer (w_km H w) = Some (mkBuf NodeBuffer (map (fun _ => 0) bytes)) /\
  rotationTimer (w_km H w1) = None /\
  (fst (rotateKey H w1) = inr tt ->
   exists nb, currentKey (w_km H (snd (rotateKey H w1))) = Some (w_next_loc H w1) /\
     w_heap H (snd (rotateKey H w1)) !! w_next_loc H w1 = Some (mkBuf ArrayBuf nb) /\
     hkdf_sync H (map (fun _ => 0) bytes) (random_bytes H (w_rng H w1) 32)
       (key_info (currentVersion (w_km H w) + 1)) 32 = Some nb).
Proof.
  intros Hm Hd. cbn zeta.
  pose proof (KeyManager_destroy_frame w) as (_ & K & _). cbn zeta in K.
  set (m := masterKeyBuffer (w_km H w)) in *.
  set (z := mkBuf NodeBuffer (map (fun _ => 0) bytes)).
  assert (Hz : fill0 (mkBuf NodeBuffer bytes) = z) by reflexivity.
  assert (Hzz : fill0 z = z) by (rewrite <- Hz; apply fill0_idem).
  set (P := fun w' : World H => w_heap H w' !! m = Some (mkBuf NodeBuffer bytes) \/
                                w_heap H w' !! m = Some z).
  assert (HP : forall o w', P w' -> P (snd (zero_if_buffer H o w'))).
  { intros o w' [Hw|Hw]; destruct (zs_at o w' m _ Hw) as [Hx|Hx];
      unfold P; rewrite ?Hx, ?Hz, ?Hzz; auto. }
  assert (Hheap : w_heap H (snd (KeyManager_destroy H w)) !! m = Some z).
  { revert Hd. rewrite KeyManager_destroy_chain. cbn zeta.
    set (w1 := snd (match rotationTimer (w_km H w) with
                    | Some t => clearInterval H t;; upd_km H (with_rotationTimer None)
                    | None => mret ()
                    end w)).
    assert (Hk1 : masterKeyBuffer (w_km H w1) = m /\ P w1).
    { unfold w1, P. destruct (rotationTimer (w_km H w)).
      - unfold clearInterval. run_m. auto.
      - cbn. auto. }
    destruct Hk1 as [Hk1 HP1].
    pose proof (HP (currentKey (w_km H w1)) w1 HP1) as HP2.
    destruct (zero_if_buffer H (currentKey (w_km H w1)) w1) as [[e1|[]] w2]; [discriminate|].
    cbn in HP2. pose proof (HP (previousKey (w_km H w1)) w2 HP2) as HP3.
    destruct (zero_if_buffer H (previousKey (w_km H w1)) w2) as [[e2|[]] w3]; [discriminate|].
    cbn in HP3. rewrite Hk1. intros _. rewrite zs_spec.
    destruct HP3 as [Hb|Hb]; rewrite Hb; cbn; rewrite lookup_insert_eq; congruence. }
  assert (Hmk : masterKeyBuffer (w_km H (snd (KeyManager_destroy H w))) = m) by (rewrite K; reflexivity).
  split; [exact Hmk|]. split; [exact Hheap|].
  split; [rewrite K; reflexivity|].
  intros Hr.
  pose proof (rotateKey_effect (snd (KeyManager_destroy H w))) as (_ & _ & _ & _ & _ & _ & _ & _ & _ & _ & Hres).
  cbn zeta in Hres. rewrite Hr in Hres. destruct Hres as (Hc & _ & nb & Hnb & Hh).
  exists nb. split; [exact Hc|]. split; [exact Hnb|].
  rewrite Hmk, Hheap in Hh. rewrite K in Hh. exact Hh.
Qed.

Lemma unhex_range (c x : Z) : unhex c = Some x -> 0 <= x < 16.
Proof.
  unfold unhex. intros Hx.
  repeat case_match; simplify_eq; rewrite ?andb_true_iff, ?Z.leb_le in *; lia.
Qed.

Lemma hex_decode_props (n : nat) (s : list Z) :
  (length s <= n)%nat ->
  (length (hex_decode s) <= Nat.div2 (length s))%nat /\
  Forall (fun b => 0 <= b < 256) (hex_decode s) /\
  (Forall (fun c => is_Some (unhex c)) s -> length (hex_decode s) = Nat.div2 (length s)).
Proof.
  revert s. induction n as [|n IH]; intros s Hl.
  - destruct s; [|cbn in Hl; lia]. cbn. repeat split; auto.
  - destruct s as [|a [|b rest]]; cbn; [repeat split; auto|repeat split; auto; lia|].
    cbn in Hl. destruct (IH rest ltac:(lia)) as (IH1 & IH2 & IH3).
    destruct (unhex a) as [x|] eqn:Ea; destruct (unhex b) as [y|] eqn:Eb.
    + apply unhex_range in Ea, Eb. cbn. repeat split.
      * lia.
      * constructor; [lia|exact IH2].
      * intros Hf. inversion Hf as [|? ? _ Hf']. inversion Hf' as [|? ? _ Hf''].
        rewrite (IH3 Hf''). reflexivity.
    + cbn. repeat split; [lia|constructor|]. intros Hf. inversion Hf as [|? ? _ Hf'].
      inversion Hf' as [|? ? Hb _]. rewrite Eb in Hb. destruct Hb; discriminate.
    + cbn. repeat split; [lia|constructor|]. intros Hf. inversion Hf as [|? ? Ha _].
      rewrite Ea in Ha. destruct Ha; discriminate.
    + cbn. repeat split; [lia|constructor|]. intros Hf. inversion Hf as [|? ? Ha _].
      rewrite Ea in Ha. destruct Ha; discriminate.
Qed.

(** A constructed key manager holds the hex-decoded master key in a Node buffer of at most 32 bytes, each in [0, 256); it has exactly 32 bytes when the low byte of every character of the key is a hex digit. *)
Lemma KeyManager_new_master_bytes mk iv (w0 w1 : World H) :
  KeyManager_new H mk iv w0 = (inr tt, w1) ->
  exists s bytes, mk = Some s /\
    w_heap H w1 !! masterKeyBuffer (w_km H w1) = Some (mkBuf NodeBuffer bytes) /\
    (length bytes <= 32)%nat /\ Forall (fun b => 0 <= b < 256) bytes /\
    (Forall (fun c => is_Some (unhex c)) s -> length bytes = 32%nat).
Proof.
  intros Hn.
  apply KeyManager_new_ok in Hn as (s & l & bytes & t & -> & Hl & _ & _ & _ & _ & _ & _ & _ & _ & _ & Hm & _).
  destruct (hex_decode_props (length s) s (le_n _)) as (P1 & P2 & P3).
  rewrite Hl in P1, P3. exists s, (hex_decode s). repeat split; assumption.
Qed.

Lemma store_error (d : val H) (w : World H) (e : exn) :
  fst (store H d w) = inl e -> e = JsError "Failed to store data".
Proof.
  unfold store, catch, throw.
  match goal with |- context [match ?m w with _ => _ end] => destruct (m w) as [[e'|r] w'] end;
    cbn; congruence.
Qed.

(** [POST /api/vault/store] answers 400 without changing state when [data] is missing or falsy, 201 with the store result when [store] succeeds, and otherwise 500 with the message [Failed to store data]; it never throws. *)
Lemma post_store_spec (truthy : val H -> bool) (data : option (val H)) (w : World H) :
  post_store H truthy data w =
  match data with
  | Some d =>
      if truthy d then
        match store H d w with
        | (inr r, w') => (inr (201, BodyStore H r), w')
        | (inl _, w') => (inr (500, BodyErrorMessage H "Failed to store data" "Failed to store data"), w')
        end
      else (inr (400, BodyError H "Missing required field: data"), w)
  | None => (inr (400, BodyError H "Missing required field: data"), w)
  end.
Proof.
  unfold post_store, catch, mbind, M_bind, mret, M_ret.
  destruct data as [d|]; [|reflexivity].
  destruct (truthy d); [|reflexivity].
  pose proof (store_error d w) as He.
  destruct (store H d w) as [[e|r] w']; [|reflexivity].
  cbn in He. rewrite (He e eq_refl). reflexivity.
Qed.

(** ** C4 *)

Lemma decrypt_inr_inv (c iv tag : list Z) (key : option loc) (w w' : World H) (v : val H) :
  decrypt H c iv tag key w = (inr v, w') ->
  exists l b p, key = Some l /\ w_heap H w !! l = Some b /\ gcm_decrypt H (buf_bytes b) iv c tag = inr p.
Proof.
  unfold decrypt, key_bytes. run_m. intros Hd.
  repeat (case_match; simplify_eq/=); eauto 10.
Qed.

Lemma decrypt_auth_error (c iv tag : list Z) (l : loc) (b : buf) (m : string) (w : World H) :
  w_heap H w !! l = Some b -> gcm_decrypt H (buf_bytes b) iv c tag = inl m ->
  str_includes m auth_failure_node_msg = true ->
  decrypt H c iv tag (Some l) w = (inl (JsError msg_auth_failed), w).
Proof.
  intros Hb Hg Hm. unfold decrypt, key_bytes. run_m.
  rewrite Hb. cbn. rewrite Hg. cbn. rewrite Hm. reflexivity.
Qed.

Lemma isVersionSupported_storage (v : Z) (w : World H) :
  exists b, isVersionSupported H v w = (inr b, w) /\
    forall s, isVersionSupported H v (set_storage H s w) = (inr b, set_storage H s w).
Proof. unfold isVersionSupported. run_m. eauto. Qed.

Lemma getKeyByVersion_storage (v : Z) (w : World H) :
  exists o, getKeyByVersion H v w = (inr o, w) /\
    forall s, getKeyByVersion H v (set_storage H s w) = (inr o, set_storage H s w).
Proof. unfold getKeyByVersion. run_m. repeat case_match; eauto. Qed.

(** C4: take a record that [retrieve(id)] reads successfully, and flip one
    bit of its stored ciphertext, IV or tag. Given GCM's integrity, the next
    [retrieve(id)] throws the authentication-failure error
    [Decryption failed: Invalid key or tampered data]. It returns no
    plaintext and changes no state. *)
Theorem tamper_detected (HL : HostLaws H) (HG : gcm_rejects_bit_flips H)
    (w : World H) (id : string) (rec : StoredRecord H) (res : RetrieveResult H)
    (iv' c' t' : list Z) :
  w_storage H w !! id = Some rec ->
  fst (retrieve H id w) = inr res ->
  one_bit_flip (base64_decode H (rec_iv H rec)) (base64_decode H (rec_ciphertext H rec))
               (base64_decode H (rec_tag H rec)) iv' c' t' ->
  let w' := set_storage H (<[id := tamper H rec iv' c' t']> (w_storage H w)) w in
  retrieve H id w' = (inl (JsError msg_auth_failed), w').
Proof.
  intros Hs Hr Hf w'.
  destruct (isVersionSupported_storage (keyVersion H rec) w) as (b & Hb & Hb').
  destruct (getKeyByVersion_storage (keyVersion H rec) w) as (o & Ho & Ho').
  unfold w'. clear w'.
  unfold retrieve, DataStore_retrieve in Hr |- *.
  unfold catch, mbind, M_bind, gets, throw, mret, M_ret in Hr |- *.
  cbn -[isVersionSupported getKeyByVersion decrypt getCurrentKey getKeyInfo tamper] in Hr |- *.
  rewrite Hs in Hr. rewrite lookup_insert_eq.
  cbn -[isVersionSupported getKeyByVersion decrypt getCurrentKey getKeyInfo tamper] in Hr |- *.
  rewrite Hb in Hr. rewrite Hb'.
  destruct b; cbn -[isVersionSupported getKeyByVersion decrypt getCurrentKey getKeyInfo tamper] in Hr |- *.
  - rewrite Ho in Hr. rewrite Ho'.
    destruct o as [l|]; cbn -[decrypt] in Hr |- *; [|discriminate].
    destruct (decrypt H _ _ _ (Some l) w) as [[e|d] w2] eqn:Ed; [discriminate|].
    apply decrypt_inr_inv in Ed as (l' & bb & p & [= <-] & Hbb & Hg).
    destruct (HG _ _ _ _ _ _ _ _ Hg Hf) as (m & Hm & Hinc).
    rewrite !(law_base64 H HL).
    rewrite (decrypt_auth_error c' iv' t' l bb m
               (set_storage H (<[id := tamper H rec iv' c' t']> (w_storage H w)) w) Hbb Hm Hinc).
    reflexivity.
  - unfold getCurrentKey, getKeyInfo, get_km, gets in Hr. cbn in Hr.
    repeat case_match; cbn in Hr; discriminate.
Qed.

End Proofs.

(** * The concrete host *)

Lemma node_host_laws : HostLaws node_host.
Proof.
  constructor; cbn.
  - intros k iv p Hk Hiv. unfold toy_gcm_encrypt, toy_gcm_decrypt.
    rewrite Hk, Hiv. cbn. exists p, (k ++ iv ++ p). split; [reflexivity|].
    rewrite bool_decide_true by reflexivity. reflexivity.
  - reflexivity.
  - reflexivity.
  - intros i n. apply repeat_length.
  - intros ikm salt info n out Hout. injection Hout as <-.
    rewrite length_take, !length_app, repeat_length. lia.
Qed.

Lemma flip_bit_ne (bs : list Z) (i : nat) :
  (i < 8 * length bs)%nat -> flip_bit bs i <> bs.
Proof.
  intros Hi Heq.
  assert (Hl : (i / 8 < length bs)%nat) by (apply Nat.Div0.div_lt_upper_bound; lia).
  destruct (lookup_lt_is_Some_2 bs (i / 8) Hl) as [b Hb].
  assert (E : flip_bit bs i !! (i / 8)%nat = bs !! (i / 8)%nat) by (rewrite Heq; reflexivity).
  unfold flip_bit in E. rewrite list_lookup_alter, Hb, decide_True in E by reflexivity.
  cbn [fmap option_fmap option_map] in E. injection E as E.
  assert (Hm : 2 ^ Z.of_nat (i mod 8) = 0).
  { apply (f_equal (Z.lxor b)) in E.
    rewrite <- Z.lxor_assoc, Z.lxor_nilpotent, Z.lxor_0_l in E. exact E. }
  pose proof (Z.pow_pos_nonneg 2 (Z.of_nat (i mod 8)) ltac:(lia) ltac:(lia)). lia.
Qed.

(** The cipher of [node_host] rejects every bit flip. *)
Lemma node_host_rejects_bit_flips : gcm_rejects_bit_flips node_host.
Proof.
  intros k iv c t p iv' c' t' Hd Hf. cbn in Hd |- *. unfold toy_gcm_decrypt in *.
  case_bool_decide as Ht; [|discriminate]. subst t.
  exists auth_failure_node_msg. split; [|vm_compute; reflexivity].
  rewrite bool_decide_false; [reflexivity|].
  inversion Hf as [i Hi|i Hi|i Hi]; subst; intros E.
  - apply app_inv_head, app_inv_tail in E. exact (flip_bit_ne iv i Hi (eq_sym E)).
  - apply app_inv_head, app_inv_head in E. exact (flip_bit_ne c i Hi (eq_sym E)).
  - exact (flip_bit_ne _ i Hi E).
Qed.

(** * Counterexamples *)

(** C6: with HKDF throwing for version 2, the first rotation throws and
    leaves the key manager changed: version 2 is current while the current
    key is still the version-1 key, which is now also the previous key. *)
Lemma rotation_failure_changes_state :
  let w1 := vault_of failing_host hex_key in
  let r := rotateKey failing_host w1 in
  fst r = inl (JsError "hkdf failed") /\
  w_km failing_host (snd r) <> w_km failing_host w1 /\
  currentVersion (w_km failing_host (snd r)) = 2 /\
  currentKey (w_km failing_host (snd r)) = currentKey (w_km failing_host w1) /\
  previousKey (w_km failing_host (snd r)) = currentKey (w_km failing_host w1).
Proof.
  vm_compute. split; [reflexivity|]. split; [discriminate|].
  split; [reflexivity|]. split; reflexivity.
Qed.

(** C7: after two rotations the version-1 key (buffer 1) is referenced by
    neither slot, and its bytes are still there, not zeroed. *)
Lemma discarded_key_not_zeroed :
  let w1 := vault_of node_host hex_key in
  let w3 := snd (rotateKey node_host (snd (rotateKey node_host w1))) in
  currentKey (w_km node_host w1) = Some 1%N /\
  currentKey (w_km node_host w3) <> Some 1%N /\
  previousKey (w_km node_host w3) <> Some 1%N /\
  w_heap node_host w3 !! 1%N = Some (mkBuf ArrayBuf (repeat 1 32)) /\
  repeat 1 32 <> map (fun _ => 0) (repeat 1 32).
Proof.
  vm_compute. split; [reflexivity|]. split; [discriminate|]. split; [discriminate|].
  split; [reflexivity|discriminate].
Qed.

(** * Evaluation at a failing input *)

(** C9: the constructor's error message asks for 64 hex characters
    (32 bytes), but the check only counts characters. The 64-character key
    of [z]s contains no hex digit, yet construction succeeds. The master key
    it yields is 0 bytes long, and the version-1 key is derived from it. *)
Lemma non_hex_master_key_accepted :
  let w := km_of node_host non_hex_key in
  length non_hex_key = 64%nat /\
  Forall (fun c => unhex c = None) non_hex_key /\
  KeyManager_new node_host (Some non_hex_key) None (w_init node_host) = (inr tt, w) /\
  w_heap node_host w !! masterKeyBuffer (w_km node_host w) = Some (mkBuf NodeBuffer []) /\
  currentVersion (w_km node_host w) = 1 /\ currentKey (w_km node_host w) <> None.
Proof.
  vm_compute. split; [reflexivity|]. split; [repeat constructor|].
  split; [reflexivity|]. split; [reflexivity|]. split; [reflexivity|discriminate].
Qed.


(** C8: after [destroy()] the master key is zeroed and the timer cleared,
    but the current key, an [ArrayBuffer] from [hkdfSync], keeps its
    derived bytes. *)
Lemma destroy_leaves_derived_key :
  let w1 := vault_of node_host hex_key in
  let w2 := snd (KeyManager_destroy node_host w1) in
  currentKey (w_km node_host w2) = Some 1%N /\
  w_heap node_host w1 !! 1%N = Some (mkBuf ArrayBuf (repeat 1 32)) /\
  w_heap node_host w2 !! 1%N = Some (mkBuf ArrayBuf (repeat 1 32)) /\
  w_heap node_host w2 !! masterKeyBuffer (w_km node_host w2) = Some (mkBuf NodeBuffer (repeat 0 32)) /\
  rotationTimer (w_km node_host w2) = None /\
  w_timers node_host w2 = ∅.
Proof. vm_compute. repeat split. Qed.

(** * Witnesses *)

Lemma store_retrieve_roundtrip_witness :
  HostLaws node_host /\
  VaultService_new node_host (Some hex_key) None (w_init node_host) = (inr tt, vault_of node_host hex_key) /\
  json_serializable node_host (5%nat : val node_host) /\
  exists r w2, store node_host (5%nat : val node_host) (vault_of node_host hex_key) = (inr r, w2) /\
    sr_keyVersion r = 1 /\
    fst (retrieve node_host (sr_id r) w2) =
      inr (mkRetrieveResult node_host (5%nat : val node_host) (sr_keyVersion r) (sr_timestamp r)).
Proof.
  assert (Hn : VaultService_new node_host (Some hex_key) None (w_init node_host) =
               (inr tt, vault_of node_host hex_key)) by (vm_compute; reflexivity).
  assert (Hs : json_serializable node_host (5%nat : val node_host))
    by (exists [5]; split; reflexivity).
  split; [exact node_host_laws|]. split; [exact Hn|]. split; [exact Hs|].
  exact (store_retrieve_roundtrip node_host node_host_laws _ _ _ _ _ Hn Hs).
Defined.

Lemma rotation_version_adjacency_witness :
  KeyManager_new node_host (Some hex_key) None (w_init node_host) = (inr tt, km_of node_host hex_key) /\
  currentVersion (w_km node_host (km_of node_host hex_key)) = 1 /\
  (let k := w_km node_host (snd (rotate_n node_host 2 (km_of node_host hex_key))) in
   currentVersion k = 1 + Z.of_nat 2 /\
   (forall p, previousVersion k = Some p -> currentVersion k = p + 1) /\
   (previousKey k <> None -> previousVersion k = Some (currentVersion k - 1))) /\
  (forall w, currentVersion (w_km node_host (snd (rotateKey node_host w))) =
             currentVersion (w_km node_host w) + 1).
Proof.
  assert (Hn : KeyManager_new node_host (Some hex_key) None (w_init node_host) =
               (inr tt, km_of node_host hex_key)) by (vm_compute; reflexivity).
  split; [exact Hn|].
  exact (rotation_version_adjacency node_host _ _ _ _ 2 Hn).
Defined.

Lemma getKeyByVersion_spec_witness :
  let w := snd (rotateKey node_host (vault_of node_host hex_key)) in
  reachable node_host w /\
  let k := w_km node_host w in
  (1 = currentVersion k -> getKeyByVersion node_host 1 w = (inr (currentKey k), w)) /\
  (previousVersion k = Some 1 -> previousKey k <> None ->
     getKeyByVersion node_host 1 w = (inr (previousKey k), w)) /\
  (1 <> currentVersion k -> ~ (previousVersion k = Some 1 /\ previousKey k <> None) ->
     getKeyByVersion node_host 1 w = (inr None, w)) /\
  snd (isVersionSupported node_host 1 w) = w /\
  (fst (isVersionSupported node_host 1 w) = inr true <->
   exists key, fst (getKeyByVersion node_host 1 w) = inr (Some key)).
Proof.
  intros w.
  assert (Hr : reachable node_host w).
  { apply reach_rotate. apply (reach_vault_new node_host (Some hex_key) None (w_init node_host)).
    vm_compute. reflexivity. }
  split; [exact Hr|].
  exact (getKeyByVersion_spec node_host w 1 Hr).
Defined.

Lemma two_rotation_expiry_witness :
  let w := vault_of node_host hex_key in
  let r := {| sr_id := "id-2"; sr_keyVersion := 1; sr_timestamp := 1000 |} in
  let w1 := snd (store node_host (5%nat : val node_host) w) in
  reachable node_host w /\ store node_host (5%nat : val node_host) w = (inr r, w1) /\
  let w3 := snd (rotateKey node_host (snd (rotateKey node_host w1))) in
  let V := sr_keyVersion r in
  V = currentVersion (w_km node_host w) /\
  retrieve node_host (sr_id r) w3 =
    (inl (JsError (msg_version_expired V (V + 2) (Some (V + 1)))), w3) /\
  msg_version_expired V (V + 2) (Some (V + 1)) <> msg_not_found /\
  msg_version_expired V (V + 2) (Some (V + 1)) <> msg_auth_failed /\
  msg_version_expired V (V + 2) (Some (V + 1)) <> msg_decrypt_failed.
Proof.
  intros w r w1.
  assert (Hr : reachable node_host w).
  { apply (reach_vault_new node_host (Some hex_key) None (w_init node_host)).
    vm_compute. reflexivity. }
  assert (Hs : store node_host (5%nat : val node_host) w = (inr r, w1))
    by (vm_compute; reflexivity).
  split; [exact Hr|]. split; [exact Hs|].
  exact (two_rotation_expiry node_host w w1 _ r Hr Hs).
Defined.

Lemma rotateKey_failure_state_witness :
  let w := vault_of failing_host hex_key in
  let w' := snd (rotateKey failing_host w) in
  rotateKey failing_host w = (inl (JsError "hkdf failed"), w') /\
  let k := w_km failing_host w in
  let k' := w_km failing_host w' in
  previousKey k' = currentKey k /\ previousVersion k' = Some (currentVersion k) /\
  currentVersion k' = currentVersion k + 1 /\ currentKey k' = currentKey k /\
  lastRotationTime k' = lastRotationTime k /\ masterKeyBuffer k' = masterKeyBuffer k /\
  rotationTimer k' = rotationTimer k.
Proof.
  intros w w'.
  assert (Hr : rotateKey failing_host w = (inl (JsError "hkdf failed"), w'))
    by (vm_compute; reflexivity).
  split; [exact Hr|].
  exact (rotateKey_failure_state failing_host w w' _ Hr).
Defined.

Lemma rotateKey_keeps_old_buffers_witness :
  let w := vault_of node_host hex_key in
  (1 < w_next_loc node_host w)%N /\
  w_heap node_host w !! 1%N = Some (mkBuf ArrayBuf (repeat 1 32)) /\
  w_heap node_host (snd (rotateKey node_host w)) !! 1%N = Some (mkBuf ArrayBuf (repeat 1 32)).
Proof.
  intros w.
  assert (Hl : (1 < w_next_loc node_host w)%N) by (vm_compute; reflexivity).
  assert (Hb : w_heap node_host w !! 1%N = Some (mkBuf ArrayBuf (repeat 1 32)))
    by (vm_compute; reflexivity).
  split; [exact Hl|]. split; [exact Hb|].
  exact (rotateKey_keeps_old_buffers node_host w 1%N _ Hl Hb).
Defined.

Lemma KeyManager_new_validation_witness :
  KeyManager_new node_host (Some hex_key) None (w_init node_host) = (inr tt, km_of node_host hex_key) /\
  exists s l bytes, Some hex_key = Some s /\ length s = 64%nat /\
    currentVersion (w_km node_host (km_of node_host hex_key)) = 1 /\
    previousVersion (w_km node_host (km_of node_host hex_key)) = None /\
    previousKey (w_km node_host (km_of node_host hex_key)) = None /\
    currentKey (w_km node_host (km_of node_host hex_key)) = Some l /\
    w_heap node_host (km_of node_host hex_key) !! l = Some (mkBuf ArrayBuf bytes) /\
    hkdf_sync node_host (hex_decode s) (random_bytes node_host (w_rng node_host (w_init node_host)) 32)
      (key_info 1) 32 = Some bytes /\
    lastRotationTime (w_km node_host (km_of node_host hex_key)) = Some (w_clock node_host (w_init node_host)).
Proof.
  assert (Hn : KeyManager_new node_host (Some hex_key) None (w_init node_host) =
               (inr tt, km_of node_host hex_key)) by (vm_compute; reflexivity).
  split; [exact Hn|].
  exact (proj2 (KeyManager_new_validation node_host (Some hex_key) None (w_init node_host))
           (km_of node_host hex_key) Hn).
Defined.

Lemma serialize_roundtrip_witness :
  HostLaws node_host /\
  deserialize node_host (serialize node_host (mkEncrypted [1; 2] [3] [4])) = mkEncrypted [1; 2] [3] [4].
Proof.
  split; [exact node_host_laws|].
  exact (serialize_roundtrip node_host node_host_laws (mkEncrypted [1; 2] [3] [4])).
Defined.

Lemma retrieve_errors_witness :
  let w := vault_of node_host hex_key in
  reachable node_host w /\
  fst (retrieve node_host "missing" w) = inl (JsError msg_not_found) /\
  let k := w_km node_host w in
  (w_storage node_host w !! "missing" = None /\ JsError msg_not_found = JsError msg_not_found) \/
  (exists rec, w_storage node_host w !! "missing" = Some rec /\
     fst (isVersionSupported node_host (keyVersion node_host rec) w) = inr false /\
     JsError msg_not_found =
       JsError (msg_version_expired (keyVersion node_host rec) (currentVersion k) (previousVersion k))) \/
  (exists rec, w_storage node_host w !! "missing" = Some rec /\
     fst (isVersionSupported node_host (keyVersion node_host rec) w) = inr true /\
     (JsError msg_not_found = JsError msg_auth_failed \/
      JsError msg_not_found = JsError msg_decrypt_failed)).
Proof.
  intros w.
  assert (Hr : reachable node_host w).
  { apply (reach_vault_new node_host (Some hex_key) None (w_init node_host)).
    vm_compute. reflexivity. }
  assert (Hf : fst (retrieve node_host "missing" w) = inl (JsError msg_not_found))
    by (vm_compute; reflexivity).
  split; [exact Hr|]. split; [exact Hf|].
  exact (retrieve_errors node_host "missing" w (JsError msg_not_found) Hr Hf).
Defined.

Lemma get_retrieve_status_witness :
  let w := vault_of node_host hex_key in
  reachable node_host w /\
  let r := get_retrieve node_host (Some "missing") w in
  snd r = w /\
  match w_storage node_host w !! "missing" with
  | None => fst r = inr (404, BodyErrorId node_host "Record not found" "missing")
  | Some rec =>
      (fst (isVersionSupported node_host (keyVersion node_host rec) w) = inr false ->
         exists m, fst r = inr (410, BodyErrorMessage node_host "Key version expired" m)) /\
      (fst (isVersionSupported node_host (keyVersion node_host rec) w) = inr true ->
         (exists res, fst r = inr (200, BodyRetrieve node_host res)) \/
         fst r = inr (500, BodyErrorMessage node_host "Failed to retrieve data" msg_auth_failed) \/
         fst r = inr (500, BodyErrorMessage node_host "Failed to retrieve data" msg_decrypt_failed))
  end.
Proof.
  intros w.
  assert (Hr : reachable node_host w).
  { apply (reach_vault_new node_host (Some hex_key) None (w_init node_host)).
    vm_compute. reflexivity. }
  split; [exact Hr|].
  exact (get_retrieve_status node_host (Some "missing") w Hr).
Defined.

Lemma get_stats_reachable_witness :
  let w := vault_of node_host hex_key in
  reachable node_host w /\
  let k := w_km node_host w in
  exists t st, lastRotationTime k = Some t /\ fst (DataStore_getStats node_host w) = inr st /\
    get_stats node_host w =
      (inr (200, BodyStats node_host (currentVersion k, previousVersion k, t, t + rotationIntervalMs k) st), w).
Proof.
  intros w.
  assert (Hr : reachable node_host w).
  { apply (reach_vault_new node_host (Some hex_key) None (w_init node_host)).
    vm_compute. reflexivity. }
  split; [exact Hr|].
  exact (get_stats_reachable node_host w Hr).
Defined.

Lemma Vault_destroy_clears_timer_witness :
  let w := vault_of node_host hex_key in
  reachable node_host w /\
  exists t, rotationTimer (w_km node_host w) = Some t /\ t ∈ w_timers node_host w /\
    w_timers node_host (snd (Vault_destroy node_host w)) = w_timers node_host w ∖ {[t]} /\
    rotationTimer (w_km node_host (snd (Vault_destroy node_host w))) = None.
Proof.
  intros w.
  assert (Hr : reachable node_host w).
  { apply (reach_vault_new node_host (Some hex_key) None (w_init node_host)).
    vm_compute. reflexivity. }
  split; [exact Hr|].
  exact (Vault_destroy_clears_timer node_host w Hr).
Defined.

Lemma retrieve_after_destroy_witness :
  let w := vault_of node_host hex_key in
  fst (Vault_destroy node_host w) = inr tt /\
  forall id, retrieve node_host id (snd (Vault_destroy node_host w)) =
             (inl (JsError msg_not_found), snd (Vault_destroy node_host w)).
Proof.
  intros w.
  assert (Hd : fst (Vault_destroy node_host w) = inr tt) by (vm_compute; reflexivity).
  split; [exact Hd|].
  exact (retrieve_after_destroy node_host w Hd).
Defined.

Lemma destroy_zeroes_master_witness :
  let w := vault_of node_host hex_key in
  let bytes := hex_decode hex_key in
  w_heap node_host w !! masterKeyBuffer (w_km node_host w) = Some (mkBuf NodeBuffer bytes) /\
  fst (KeyManager_destroy node_host w) = inr tt /\
  let w1 := snd (KeyManager_destroy node_host w) in
  masterKeyBuffer (w_km node_host w1) = masterKeyBuffer (w_km node_host w) /\
  w_heap node_host w1 !! masterKeyBuffer (w_km node_host w) =
    Some (mkBuf NodeBuffer (map (fun _ => 0) bytes)) /\
  rotationTimer (w_km node_host w1) = None /\
  (fst (rotateKey node_host w1) = inr tt ->
   exists nb, currentKey (w_km node_host (snd (rotateKey node_host w1))) = Some (w_next_loc node_host w1) /\
     w_heap node_host (snd (rotateKey node_host w1)) !! w_next_loc node_host w1 = Some (mkBuf ArrayBuf nb) /\
     hkdf_sync node_host (map (fun _ => 0) bytes) (random_bytes node_host (w_rng node_host w1) 32)
       (key_info (currentVersion (w_km node_host w) + 1)) 32 = Some nb).
Proof.
  intros w bytes.
  assert (Hm : w_heap node_host w !! masterKeyBuffer (w_km node_host w) = Some (mkBuf NodeBuffer bytes))
    by (vm_compute; reflexivity).
  assert (Hd : fst (KeyManager_destroy node_host w) = inr tt) by (vm_compute; reflexivity).
  split; [exact Hm|]. split; [exact Hd|].
  exact (destroy_zeroes_master node_host w bytes Hm Hd).
Defined.

Lemma KeyManager_new_master_bytes_witness :
  KeyManager_new node_host (Some hex_key) None (w_init node_host) = (inr tt, km_of node_host hex_key) /\
  exists s bytes, Some hex_key = Some s /\
    w_heap node_host (km_of node_host hex_key) !! masterKeyBuffer (w_km node_host (km_of node_host hex_key)) =
      Some (mkBuf NodeBuffer bytes) /\
    (length bytes <= 32)%nat /\ Forall (fun b => 0 <= b < 256) bytes /\
    (Forall (fun c => is_Some (unhex c)) s -> length bytes = 32%nat).
Proof.
  assert (Hn : KeyManager_new node_host (Some hex_key) None (w_init node_host) =
               (inr tt, km_of node_host hex_key)) by (vm_compute; reflexivity).
  split; [exact Hn|].
  exact (KeyManager_new_master_bytes node_host _ _ _ _ Hn).
Defined.

Lemma tamper_detected_witness :
  let w := snd (store node_host (5%nat : val node_host) (vault_of node_host hex_key)) in
  let rec := mkRecord node_host "id-2" 1 [5] (repeat 2 12) (repeat 1 32 ++ repeat 2 12 ++ [5]) 1000 [] in
  let iv' := base64_decode node_host (rec_iv node_host rec) in
  let c' := flip_bit (base64_decode node_host (rec_ciphertext node_host rec)) 0 in
  let t' := base64_decode node_host (rec_tag node_host rec) in
  HostLaws node_host /\ gcm_rejects_bit_flips node_host /\
  w_storage node_host w !! "id-2" = Some rec /\
  fst (retrieve node_host "id-2" w) = inr (mkRetrieveResult node_host (5%nat : val node_host) 1 1000) /\
  one_bit_flip (base64_decode node_host (rec_iv node_host rec))
               (base64_decode node_host (rec_ciphertext node_host rec))
               (base64_decode node_host (rec_tag node_host rec)) iv' c' t' /\
  let w' := set_storage node_host (<["id-2" := tamper node_host rec iv' c' t']> (w_storage node_host w)) w in
  retrieve node_host "id-2" w' = (inl (JsError msg_auth_failed), w').
Proof.
  intros w rec iv' c' t'.
  assert (Hs : w_storage node_host w !! "id-2" = Some rec) by (vm_compute; reflexivity).
  assert (Hr : fst (retrieve node_host "id-2" w) =
               inr (mkRetrieveResult node_host (5%nat : val node_host) 1 1000)) by (vm_compute; reflexivity).
  assert (Hf : one_bit_flip (base64_decode node_host (rec_iv node_host rec))
                 (base64_decode node_host (rec_ciphertext node_host rec))
                 (base64_decode node_host (rec_tag node_host rec)) iv' c' t')
    by (apply (flip_ciphertext _ _ _ 0); cbn; lia).
  split; [exact node_host_laws|]. split; [exact node_host_rejects_bit_flips|].
  split; [exact Hs|]. split; [exact Hr|]. split; [exact Hf|].
  exact (tamper_detected node_host node_host_laws node_host_rejects_bit_flips w "id-2" rec _ iv' c' t' Hs Hr Hf).
Defined.
